(** * go-source-server: resolution of import paths and lookup of source files

    A shallow embedding of the two revisions of the server kept in the
    repository:

    - [Locator]  follows [src/main.go]: the handler takes a repository and a
      recorded path, materialises the module and walks its directory for the
      file whose root-relative path is the longest suffix of the recorded path;
    - [Resolver] follows [src/unnamed/part_000]: the handler takes a function
      symbol and a recorded path, and [resolveImportPath] reconstructs the
      repository, the revision and the relative path from them.

    Go strings are immutable byte sequences and are modelled as [list ascii].
    Go [int] values that index strings and slices are modelled in [Z]: the
    lengths involved are far below 2^63, so no wrap-around occurs, but
    differences of lengths can be negative and [strings.Index] answers -1.
    A slice expression or an index out of range panics at run time; the
    embedding keeps that outcome as [Panic]. *)

From Stdlib Require Import List Ascii String ZArith Lia Bool Permutation.
Import ListNotations.
Local Open Scope Z_scope.

(** ** Go values and run-time outcomes *)

Definition gostring := list ascii.

(** String literals of the source. *)
Definition lit (s : string) : gostring := list_ascii_of_string s.

Definition len {A : Type} (l : list A) : Z := Z.of_nat (List.length l).

Definition eqb_gostring (a b : gostring) : bool :=
  if list_eq_dec ascii_dec a b then true else false.

Definition isEmpty (s : gostring) : bool :=
  match s with [] => true | _ => false end.

(** The struct decoded from the output of [go mod download -json]. *)
Record GoModInfo := mkGoModInfo {
  Path : gostring;
  Version : gostring;
  Query : gostring;
  Info : gostring;
  GoMod : gostring;
  Zip : gostring;
  Dir : gostring;
  Sum : gostring;
  GoModSum : gostring
}.

(** Values of Go's [error] interface that the program creates or receives. *)
Inductive error : Type :=
| errors_New (msg : gostring)                     (* errors.New(msg) *)
| fmt_Errorf_w (info : GoModInfo) (inner : error) (* fmt.Errorf("%+#v: %w", info, inner) *)
| io_EOF                                          (* io.EOF *)
| os_ErrInvalid                                   (* os.ErrInvalid: use of a nil *os.File *)
| external (code : nat).                          (* an error made by the OS, exec or json *)

(** What a call can do: return a value, return an error, or panic. *)
Inductive result (A : Type) : Type :=
| Ok (a : A)
| Err (e : error)
| Panic.
Arguments Ok {A} a.
Arguments Err {A} e.
Arguments Panic {A}.

Definition bind {A B : Type} (r : result A) (k : A -> result B) : result B :=
  match r with
  | Ok a => k a
  | Err e => Err e
  | Panic => Panic
  end.

Notation "x <- r ;; k" := (bind r (fun x => k))
  (at level 61, r at next level, right associativity).

(** ** Slices and the [strings] package *)

Module GoStrings.

(** [s[lo:]] *)
Definition sliceFrom {A : Type} (s : list A) (lo : Z) : result (list A) :=
  if (0 <=? lo) && (lo <=? len s) then Ok (skipn (Z.to_nat lo) s) else Panic.

(** [s[:hi]] *)
Definition sliceTo {A : Type} (s : list A) (hi : Z) : result (list A) :=
  if (0 <=? hi) && (hi <=? len s) then Ok (firstn (Z.to_nat hi) s) else Panic.

(** [s[lo:hi]] *)
Definition slice {A : Type} (s : list A) (lo hi : Z) : result (list A) :=
  if (0 <=? lo) && (lo <=? hi) && (hi <=? len s)
  then Ok (firstn (Z.to_nat (hi - lo)) (skipn (Z.to_nat lo) s))
  else Panic.

(** [s[i]] *)
Definition index {A : Type} (d : A) (s : list A) (i : Z) : result A :=
  if (0 <=? i) && (i <? len s) then Ok (nth (Z.to_nat i) s d) else Panic.

(** [s[i] = v] on a slice that [i] is known to index. *)
Fixpoint update {A : Type} (s : list A) (i : nat) (v : A) : list A :=
  match s, i with
  | [], _ => []
  | _ :: t, O => v :: t
  | x :: t, S j => x :: update t j v
  end.

(** [strings.HasPrefix(s, prefix)] *)
Fixpoint HasPrefix (s prefix : gostring) : bool :=
  match prefix, s with
  | [], _ => true
  | _ :: _, [] => false
  | p :: prefix', c :: s' => if ascii_dec c p then HasPrefix s' prefix' else false
  end.

(** [strings.HasSuffix(s, suffix)]:
    [len(s) >= len(suffix) && s[len(s)-len(suffix):] == suffix] *)
Definition HasSuffix (s suffix : gostring) : bool :=
  (len suffix <=? len s) &&
  eqb_gostring (skipn (Z.to_nat (len s - len suffix)) s) suffix.

(** [strings.Index(s, substr)]: the first instance of [substr], or -1. *)
Fixpoint Index (s substr : gostring) : Z :=
  if HasPrefix s substr then 0
  else match s with
       | [] => -1
       | _ :: t => let r := Index t substr in if r <? 0 then -1 else r + 1
       end.

(** [strings.LastIndex(s, substr)]: the last instance of [substr], or -1. *)
Fixpoint LastIndex (s substr : gostring) : Z :=
  match s with
  | [] => if HasPrefix [] substr then 0 else -1
  | _ :: t =>
      let r := LastIndex t substr in
      if 0 <=? r then r + 1
      else if HasPrefix s substr then 0 else -1
  end.

(** [strings.Contains(s, substr)]: [Index(s, substr) >= 0] *)
Definition Contains (s substr : gostring) : bool := 0 <=? Index s substr.

(** [strings.Split(s, sep)] for a separator of one byte, the only kind the
    program uses: the pieces between the separators, always at least one. *)
Fixpoint Split (s : gostring) (sep : ascii) : list gostring :=
  match s with
  | [] => [[]]
  | c :: t =>
      if ascii_dec c sep then [] :: Split t sep
      else match Split t sep with
           | [] => [[c]]
           | p :: ps => (c :: p) :: ps
           end
  end.

(** [strings.Join(elems, sep)] *)
Fixpoint Join (elems : list gostring) (sep : gostring) : gostring :=
  match elems with
  | [] => []
  | [e] => e
  | e :: rest => e ++ sep ++ Join rest sep
  end.

End GoStrings.
Import GoStrings.

Definition slash : ascii := "/"%char.

(** ** The external collaborators

    The commands the server runs, the JSON decoder, the directory walk and the
    file system are outside the program.  A [World] fixes their answers for
    one request, so that the handlers become functions of the request and the
    world. *)

(** A directory entry handed to the callback of [filepath.WalkDir]. *)
Record DirEntry := mkDirEntry {
  de_path : gostring;
  de_isDir : bool
}.

(** An open [*os.File]: the bytes it yields and the error, if any, that ends
    the reading. *)
Record File := mkFile {
  f_bytes : gostring;
  f_readErr : option error
}.

Record World := mkWorld {
  (** [exec.Command("go", "env", "GOROOT").Output()] *)
  w_goEnvGOROOT : gostring * option error;
  (** running [go mod download -json arg]: what [json.Unmarshal] makes of the
      standard output, and the exit status of the command *)
  w_goModDownload : gostring -> (error + GoModInfo) * option error;
  (** [filepath.WalkDir(dir, fn)]: the entries in the order [fn] sees them *)
  w_walkDir : gostring -> list DirEntry;
  (** [os.Open(filepath.Join(elems...))] *)
  w_openJoin : list gostring -> error + File;
  (** [strings.TrimSpace] *)
  w_TrimSpace : gostring -> gostring;
  (** [os.Lstat(root)], the first step of [filepath.WalkDir(root, fn)]: the
      error, if the root cannot be examined *)
  w_Lstat : gostring -> option error
}.

(** The [http.ResponseWriter] of a request: the status line once it is sent,
    and the body written so far. *)
Record Response := mkResponse {
  status : option Z;
  body : gostring
}.

Definition emptyResponse : Response := mkResponse None [].

(** [w.Write(p)]: the first write sends status 200 unless a status was sent. *)
Definition Write (w : Response) (p : gostring) : Response :=
  mkResponse (match status w with Some c => Some c | None => Some 200 end)
             (body w ++ p).

(** [w.WriteHeader(code)]: only the first status counts. *)
Definition WriteHeader (w : Response) (code : Z) : Response :=
  mkResponse (match status w with Some c => Some c | None => Some code end)
             (body w).

Definition newline : gostring := [ascii_of_nat 10].

(** [http.Error(w, msg, code)] *)
Definition http_Error (w : Response) (msg : gostring) (code : Z) : Response :=
  Write (WriteHeader w code) (msg ++ newline).

Definition StatusBadRequest : Z := 400.
Definition StatusInternalServerError : Z := 500.

(** [io.Copy(w, f)].  A nil file fails on its first read with
    [os.ErrInvalid] and nothing is written.  An open file is read until its
    end or its read error, and the bytes read are written: when the reading
    fails before any byte was read, [io.Copy] writes nothing and the response
    is left as it was.  A copy that ends without error leaves the response
    with status 200, also for a file without bytes, for which the server
    sends that status once the handler is done. *)
Definition io_Copy (w : Response) (f : option File) : Response * option error :=
  match f with
  | None => (w, Some os_ErrInvalid)
  | Some file =>
      match f_readErr file with
      | None => (Write w (f_bytes file), None)
      | Some e =>
          (if isEmpty (f_bytes file) then w else Write w (f_bytes file), Some e)
      end
  end.

(** ** [src/unnamed/part_000]: resolution from a symbol and a recorded path *)

Module Resolver.

Record SourceSpec := mkSourceSpec {
  Repo : gostring;
  RelativePath : gostring;
  Revision : gostring
}.

Definition zeroSpec : SourceSpec := mkSourceSpec [] [] [].

(** How one pass through the body of the [for idx := range pathParts] loop
    ends. *)
Inductive loopExit : Type :=
| Return (spec : SourceSpec)
| Break (spec : SourceSpec) (pathParts : list gostring)
| Next.

(** The body of the loop that looks for a go.mod version specifier. *)
Definition scanBody (path : gostring) (spec : SourceSpec)
    (pathParts : list gostring) (idx : Z) : result loopExit :=
  seg <- index [] pathParts idx ;;
  let pos := LastIndex seg (lit "@") in
  if 0 <=? pos then
    rev <- sliceFrom seg (pos + 1) ;;
    seg' <- sliceTo seg pos ;;
    let pathParts := update pathParts (Z.to_nat idx) seg' in
    rest <- sliceFrom pathParts (idx + 1) ;;
    let spec := mkSourceSpec (Repo spec) (Join rest (lit "/")) rev in
    if negb (HasPrefix path (lit "/")) then
      upto <- sliceTo pathParts (idx + 1) ;;
      Ok (Return (mkSourceSpec (Join upto (lit "/")) (RelativePath spec) (Revision spec)))
    else Ok (Break spec pathParts)
  else Ok Next.

(** [n] iterations of the loop remain, starting at [idx]. *)
Fixpoint scanLoop (n : nat) (path : gostring) (spec : SourceSpec)
    (pathParts : list gostring) (idx : Z) : result loopExit :=
  match n with
  | O => Ok (Break spec pathParts)
  | S n' =>
      r <- scanBody path spec pathParts idx ;;
      match r with
      | Next => scanLoop n' path spec pathParts (idx + 1)
      | exit => Ok exit
      end
  end.

Definition msgFunctionEmpty : gostring :=
  lit "function is empty and couldn't be determined, as this is only possible when a relative path is used with a go.mod version specification".

(** The end of [resolveImportPath]: the repository from the first three
    parts of the symbol, the relative path from the tail of the path. *)
Definition reconstruct (path : gostring) (spec : SourceSpec)
    (pathParts functionParts : list gostring) : result SourceSpec :=
  r <- (if isEmpty (Repo spec) then
          if 3 <=? len functionParts then
            repo <- sliceTo functionParts 3 ;;
            rest <- sliceFrom functionParts 3 ;;
            Ok (mkSourceSpec (Join repo (lit "/")) (RelativePath spec) (Revision spec), rest)
          else Ok (spec, functionParts)
        else Ok (spec, functionParts)) ;;
  let '(spec, functionParts) := r in
  if isEmpty (RelativePath spec) then
    let startIndex := len pathParts - len functionParts - 1 in
    tail <- sliceFrom pathParts startIndex ;;
    Ok (mkSourceSpec (Repo spec) (Join tail (lit "/")) (Revision spec))
  else Ok spec.

(** The symbol split on "/" with the function name cut off its last part, at
    the first ".". *)
Definition qualifierParts (function : gostring) : result (list gostring) :=
  let functionParts := Split function slash in
  last <- index [] functionParts (len functionParts - 1) ;;
  let posDot := Index last (lit ".") in
  if 0 <=? posDot then
    cut <- sliceTo last posDot ;;
    Ok (update functionParts (Z.to_nat (len functionParts - 1)) cut)
  else Ok functionParts.

(** [resolveImportPath] after the loop. *)
Definition afterScan (function path : gostring) (spec : SourceSpec)
    (pathParts : list gostring) : result SourceSpec :=
  if isEmpty function then Err (errors_New msgFunctionEmpty)
  else
    functionParts <- qualifierParts function ;;
    first <- index [] functionParts 0 ;;
    if negb (Contains first (lit ".")) then
      let pos := LastIndex path first in
      if 0 <=? pos then
        rel <- sliceFrom path pos ;;
        Ok (mkSourceSpec [] rel [])
      else reconstruct path spec pathParts functionParts
    else reconstruct path spec pathParts functionParts.

Definition resolveImportPath (function path : gostring) : result SourceSpec :=
  let pathParts := Split path slash in
  r <- scanLoop (List.length pathParts) path zeroSpec pathParts 0 ;;
  match r with
  | Return spec => Ok spec
  | Break spec pathParts => afterScan function path spec pathParts
  | Next => afterScan function path zeroSpec pathParts
  end.


(** A function that writes to the response and returns an [error]: the
    response as it leaves it, and whether it returned nil, returned an error
    or panicked. *)
Definition written : Type := Response * result unit.

(** [writeStdLibGo(ctx, sourcePath, w)].  The error of [os.Open] is assigned
    and never read; when the call fails [f] is nil. *)
Definition writeStdLibGo (W : World) (sourcePath : gostring) (w : Response)
    : written :=
  let '(goRoot, err) := w_goEnvGOROOT W in
  match err with
  | Some e => (w, Err e)
  | None =>
      let f := match w_openJoin W [w_TrimSpace W goRoot; lit "src"; sourcePath] with
               | inr file => Some file
               | inl _ => None
               end in
      match io_Copy w f with
      | (w', Some e) => (w', Err e)
      | (w', None) => (w', Ok tt)
      end
  end.

(** [writeSourceGo(ctx, repo, revision, path, w)] *)
Definition writeSourceGo (W : World) (repo revision path : gostring)
    (w : Response) : written :=
  let '(decoded, exitErr) := w_goModDownload W (repo ++ lit "@" ++ revision) in
  match decoded with
  | inl e => (w, Err e)
  | inr goModInfo =>
      match exitErr with
      | Some e => (w, Err (fmt_Errorf_w goModInfo e))
      | None =>
          match w_openJoin W [Dir goModInfo; path] with
          | inl e => (w, Err e)
          | inr file =>
              match io_Copy w (Some file) with
              | (w', Some e) => (w', Err e)
              | (w', None) => (w', Ok tt)
              end
          end
      end
  end.

(** The revision [writeContent] asks [writeSourceGo] for. *)
Definition chooseRevision (s : SourceSpec) (revision : gostring) : gostring :=
  let rev := Revision s in
  let rev := if isEmpty rev then revision else rev in
  let rev := if isEmpty rev then lit "latest" else rev in
  rev.

(** [(s *SourceSpec) writeContent(ctx, revision, w)] *)
Definition writeContent (W : World) (s : SourceSpec) (revision : gostring)
    (w : Response) : written :=
  if isEmpty (Repo s) then writeStdLibGo W (RelativePath s) w
  else writeSourceGo W (Repo s) (chooseRevision s revision) (RelativePath s) w.

(** The query of a request: [q.Get] answers the empty string for a parameter
    that is absent. *)
Record Request := mkRequest {
  q_function : gostring;
  q_revision : gostring;
  q_path : gostring
}.

(** [handleSourceGo(w, req)]: the response, unless the handler panics. *)
Definition handleSourceGo (W : World) (req : Request) (w : Response)
    : result Response :=
  let function := q_function req in
  let revision := q_revision req in
  let path := q_path req in
  if isEmpty path then Ok (http_Error w (lit "missing path") StatusBadRequest)
  else
    let revision := if isEmpty revision then lit "latest" else revision in
    match resolveImportPath function path with
    | Panic => Panic
    | Err _ =>
        Ok (http_Error w (lit "error resolving import path") StatusInternalServerError)
    | Ok spec =>
        match writeContent W spec revision w with
        | (_, Panic) => Panic
        | (w', Err _) =>
            Ok (http_Error w' (lit "error retrieving source code") StatusInternalServerError)
        | (w', Ok _) => Ok w'
        end
    end.

End Resolver.

(** ** [src/main.go]: lookup of the file in the materialised module *)

Module Locator.

Definition written : Type := Response * result unit.

(** The callback given to [filepath.WalkDir]: [foundFile] before the entry,
    and after it. *)
Definition walkFn (sourcePath : gostring) (prefixLen : Z) (foundFile : gostring)
    (d : DirEntry) : result gostring :=
  if de_isDir d then Ok foundFile
  else
    relPath <- sliceFrom (de_path d) (prefixLen + 1) ;;
    if HasSuffix sourcePath relPath then
      if len foundFile <? len relPath then Ok relPath else Ok foundFile
    else Ok foundFile.

(** The walk over the entries, in the order [filepath.WalkDir] visits them. *)
Fixpoint walk (sourcePath : gostring) (prefixLen : Z) (foundFile : gostring)
    (entries : list DirEntry) : result gostring :=
  match entries with
  | [] => Ok foundFile
  | d :: rest =>
      foundFile <- walkFn sourcePath prefixLen foundFile d ;;
      walk sourcePath prefixLen foundFile rest
  end.

(** The search of [writeSourceGo] for the file under [dir]: the root-relative
    path it settles on, or [io.EOF] when it found none. *)
Definition locate (dir : gostring) (entries : list DirEntry)
    (sourcePath : gostring) : result gostring :=
  foundFile <- walk sourcePath (len dir) [] entries ;;
  if isEmpty foundFile then Err io_EOF else Ok foundFile.

Definition pkgModPath : gostring := lit "/pkg/mod/".

(** When the recorded path lies in a module cache: the module, revision and
    remaining path that [writeSourceGo] calls itself with. *)
Definition dependency (sourcePath : gostring)
    : result (option (gostring * gostring * gostring)) :=
  let i := Index sourcePath pkgModPath in
  if 0 <? i then
    depPath <- sliceFrom sourcePath (len pkgModPath + i) ;;
    let posAt := Index depPath (lit "@") in
    if 0 <? posAt then
      fromAt <- sliceFrom depPath posAt ;;
      let posEnd := posAt + Index fromAt (lit "/") in
      if 0 <? posEnd then
        module <- sliceTo depPath posAt ;;
        revision <- slice depPath (posAt + 1) posEnd ;;
        rest <- sliceFrom depPath posEnd ;;
        Ok (Some (module, revision, rest))
      else Ok None
    else Ok None
  else Ok None.

(** [writeSourceGo(ctx, repo, revision, sourcePath, w)]; [fuel] bounds the
    depth of the calls to itself, each of which shortens [sourcePath].  When
    [os.Lstat] of the root fails, [filepath.WalkDir] calls the callback with a
    nil entry and [d.IsDir()] panics. *)
Fixpoint writeSourceGo_depth (fuel : nat) (W : World)
    (repo revision sourcePath : gostring) (w : Response) : written :=
  match dependency sourcePath with
  | Panic => (w, Panic)
  | Err e => (w, Err e)
  | Ok (Some (module, revision', rest)) =>
      match fuel with
      | O => (w, Panic)
      | S fuel' => writeSourceGo_depth fuel' W module revision' rest w
      end
  | Ok None =>
      let '(decoded, exitErr) := w_goModDownload W (repo ++ lit "@" ++ revision) in
      match decoded with
      | inl e => (w, Err e)
      | inr goModInfo =>
          match exitErr with
          | Some e => (w, Err (fmt_Errorf_w goModInfo e))
          | None =>
              match w_Lstat W (Dir goModInfo) with
              | Some _ => (w, Panic)
              | None =>
                  match locate (Dir goModInfo) (w_walkDir W (Dir goModInfo))
                          sourcePath with
                  | Panic => (w, Panic)
                  | Err e => (w, Err e)
                  | Ok foundFile =>
                      match w_openJoin W [Dir goModInfo; foundFile] with
                      | inl e => (w, Err e)
                      | inr file =>
                          match io_Copy w (Some file) with
                          | (w', Some e) => (w', Err e)
                          | (w', None) => (w', Ok tt)
                          end
                      end
                  end
              end
          end
      end
  end.

Definition writeSourceGo (W : World) (repo revision sourcePath : gostring)
    (w : Response) : written :=
  writeSourceGo_depth (List.length sourcePath) W repo revision sourcePath w.

Record Request := mkRequest {
  q_repo : gostring;
  q_revision : gostring;
  q_path : gostring
}.

(** [handleSourceGo(w, req)]: the response, unless the handler panics. *)
Definition handleSourceGo (W : World) (req : Request) (w : Response)
    : result Response :=
  let repo := q_repo req in
  let revision := q_revision req in
  let path := q_path req in
  if isEmpty repo then Ok (http_Error w (lit "missing repo") StatusBadRequest)
  else if isEmpty path then Ok (http_Error w (lit "missing path") StatusBadRequest)
  else
    let revision := if isEmpty revision then lit "latest" else revision in
    match writeSourceGo W repo revision path w with
    | (_, Panic) => Panic
    | (w', Err _) =>
        Ok (http_Error w' (lit "error receiving source code") StatusInternalServerError)
    | (w', Ok _) => Ok (Write w' (lit "hello" ++ newline))
    end.

End Locator.

(** ** Notions of the specification *)

(** [sub] occurs in [s]. *)
Definition Occ (s sub : gostring) : Prop := exists a b, s = a ++ sub ++ b.

(** [s] ends with [x]. *)
Definition EndsWith (s x : gostring) : Prop := exists a, s = a ++ x.

Definition at_sign : ascii := "@"%char.
Definition dot : ascii := "."%char.

(** A segment that carries a version marker. *)
Definition hasMarker (seg : gostring) : bool :=
  if in_dec ascii_dec at_sign seg then true else false.

(** The direct form [module@revision/relative/path]: the recorded path does
    not begin with the root separator and one of its segments has a marker. *)
Definition isDirectForm (rawPath : gostring) : bool :=
  negb (HasPrefix rawPath [slash]) && existsb hasMarker (Split rawPath slash).

(** The trailing [n] segments. *)
Definition trailing (n : nat) (segments : list gostring) : list gostring :=
  skipn (List.length segments - n) segments.

(** The text the final segment of the recorded path keeps once a marker in
    it is cut off: what stands before its last "@", or all of it. *)
Definition finalSegmentText (rawPath : gostring) : gostring :=
  let seg := List.last (Split rawPath slash) [] in
  let pos := LastIndex seg [at_sign] in
  if 0 <=? pos then firstn (Z.to_nat pos) seg else seg.

(** The match of the specification: [recordedPath] ends with [relPath], and
    the byte before that ending, if there is one, is the path separator. *)
Definition segmentAligned (recordedPath relPath : gostring) : bool :=
  HasSuffix recordedPath relPath &&
  (if len relPath <? len recordedPath
   then match nth_error recordedPath (Z.to_nat (len recordedPath - len relPath - 1)) with
        | Some c => if ascii_dec c slash then true else false
        | None => false
        end
   else true).


(** An entry the walk of [dir] can meet: a directory, or a file whose path is
    [dir], a separator and a root-relative path that is not empty. *)
Definition underRoot (dir : gostring) (d : DirEntry) : bool :=
  de_isDir d ||
  (HasPrefix (de_path d) (dir ++ [slash]) && (len dir + 1 <? len (de_path d))).

(** The root-relative path of a file under [dir]. *)
Definition relPathOf (dir : gostring) (d : DirEntry) : gostring :=
  skipn (List.length dir + 1) (de_path d).

(** [c] is the root-relative path of a file among [entries] and ends
    [recordedPath]: a candidate the walk accepts. *)
Definition Candidate (dir : gostring) (entries : list DirEntry)
    (recordedPath c : gostring) : Prop :=
  exists d, In d entries /\ de_isDir d = false /\ relPathOf dir d = c /\
            EndsWith recordedPath c.

(** The segments from the last one that is [part] on, when there is one: the
    portion of the recorded path that the specification takes for a package
    of the standard library. *)
Fixpoint fromLastSegment (part : gostring) (segments : list gostring)
    : option (list gostring) :=
  match segments with
  | [] => None
  | seg :: rest =>
      match fromLastSegment part rest with
      | Some tail => Some tail
      | None => if eqb_gostring seg part then Some (seg :: rest) else None
      end
  end.

(** A world whose collaborators never answer with [io.EOF]: the decoder of
    the download, [os.Open] and the reading of an open file have errors of
    their own. *)
Definition neverEOF (W : World) : Prop :=
  (forall arg e x, w_goModDownload W arg = (inl e, x) -> e <> io_EOF) /\
  (forall elems e, w_openJoin W elems = inl e -> e <> io_EOF) /\
  (forall elems file e,
     w_openJoin W elems = inr file -> f_readErr file = Some e -> e <> io_EOF).


(** ** A sample world

    The toolchain lives in /usr/local/go and has the file fmt/print.go; every
    module is materialised in /m, which holds the file pkg/a.go; no other
    file can be opened. *)

Definition eqb_paths (a b : list gostring) : bool :=
  if list_eq_dec (list_eq_dec ascii_dec) a b then true else false.

Definition sampleInfo : GoModInfo :=
  mkGoModInfo (lit "example.com/org/m") (lit "v1.2.3") (lit "v1.2.3")
    [] [] [] (lit "/m") [] [].

Definition sampleWorld : World :=
  mkWorld
    (lit "/usr/local/go", None)
    (fun _ => (inr sampleInfo, None))
    (fun _ => [mkDirEntry (lit "/m") true; mkDirEntry (lit "/m/pkg") true;
               mkDirEntry (lit "/m/pkg/a.go") false])
    (fun elems =>
       if eqb_paths elems [lit "/m"; lit "pkg/a.go"]
       then inr (mkFile (lit "package pkg") None)
       else if eqb_paths elems [lit "/usr/local/go"; lit "src"; lit "fmt/print.go"]
       then inr (mkFile (lit "package fmt") None)
       else inl (external 2))
    (fun s => s)
    (fun _ => None).

(** ** Facts on slices and on the [strings] package *)

Lemma len_nonneg {A : Type} (l : list A) : 0 <= len l.
Proof. unfold len. lia. Qed.

Lemma len_app {A : Type} (a b : list A) : len (a ++ b) = len a + len b.
Proof. unfold len. rewrite length_app. lia. Qed.

Lemma len_cons {A : Type} (x : A) (l : list A) : len (x :: l) = len l + 1.
Proof. unfold len. simpl. lia. Qed.

Lemma len_nil {A : Type} : len (@nil A) = 0.
Proof. reflexivity. Qed.

Lemma isEmpty_true (s : gostring) : isEmpty s = true <-> s = [].
Proof. destruct s; simpl; split; congruence. Qed.

Lemma isEmpty_false (s : gostring) : isEmpty s = false <-> s <> [].
Proof. destruct s; simpl; split; congruence. Qed.

Lemma eqb_gostring_true (a b : gostring) : eqb_gostring a b = true <-> a = b.
Proof.
  unfold eqb_gostring. destruct (list_eq_dec ascii_dec a b); split; congruence.
Qed.

Lemma sliceFrom_ok {A : Type} (s : list A) (lo : Z) :
  0 <= lo <= len s -> sliceFrom s lo = Ok (skipn (Z.to_nat lo) s).
Proof.
  intros H. unfold sliceFrom.
  replace (0 <=? lo) with true by (symmetry; apply Z.leb_le; lia).
  replace (lo <=? len s) with true by (symmetry; apply Z.leb_le; lia).
  reflexivity.
Qed.

Lemma sliceTo_ok {A : Type} (s : list A) (hi : Z) :
  0 <= hi <= len s -> sliceTo s hi = Ok (firstn (Z.to_nat hi) s).
Proof.
  intros H. unfold sliceTo.
  replace (0 <=? hi) with true by (symmetry; apply Z.leb_le; lia).
  replace (hi <=? len s) with true by (symmetry; apply Z.leb_le; lia).
  reflexivity.
Qed.

Lemma sliceFrom_panic {A : Type} (s : list A) (lo : Z) :
  lo < 0 -> sliceFrom s lo = Panic.
Proof.
  intros H. unfold sliceFrom.
  replace (0 <=? lo) with false by (symmetry; apply Z.leb_gt; lia).
  reflexivity.
Qed.

Lemma index_ok {A : Type} (d : A) (s : list A) (i : Z) :
  0 <= i < len s -> index d s i = Ok (nth (Z.to_nat i) s d).
Proof.
  intros H. unfold index.
  replace (0 <=? i) with true by (symmetry; apply Z.leb_le; lia).
  replace (i <? len s) with true by (symmetry; apply Z.ltb_lt; lia).
  reflexivity.
Qed.

Lemma to_nat_len {A : Type} (l : list A) : Z.to_nat (len l) = List.length l.
Proof. unfold len. lia. Qed.

Lemma sliceFrom_app {A : Type} (a b : list A) :
  sliceFrom (a ++ b) (len a) = Ok b.
Proof.
  rewrite sliceFrom_ok.
  - rewrite to_nat_len, skipn_app, skipn_all, Nat.sub_diag. reflexivity.
  - rewrite len_app. pose proof (len_nonneg a). pose proof (len_nonneg b). lia.
Qed.

Lemma sliceTo_app {A : Type} (a b : list A) :
  sliceTo (a ++ b) (len a) = Ok a.
Proof.
  rewrite sliceTo_ok.
  - rewrite to_nat_len, firstn_app, firstn_all, Nat.sub_diag. simpl.
    rewrite app_nil_r. reflexivity.
  - rewrite len_app. pose proof (len_nonneg a). pose proof (len_nonneg b). lia.
Qed.

Lemma index_app {A : Type} (d : A) (a : list A) (x : A) (b : list A) :
  index d (a ++ x :: b) (len a) = Ok x.
Proof.
  rewrite index_ok.
  - rewrite to_nat_len, nth_middle. reflexivity.
  - rewrite len_app, len_cons.
    pose proof (len_nonneg a). pose proof (len_nonneg b). lia.
Qed.

Lemma update_app {A : Type} (a : list A) (x v : A) (b : list A) :
  update (a ++ x :: b) (List.length a) v = a ++ v :: b.
Proof. induction a as [|y a IH]; simpl; [reflexivity | now rewrite IH]. Qed.

Lemma HasPrefix_iff (s p : gostring) :
  HasPrefix s p = true <-> exists t, s = p ++ t.
Proof.
  revert s. induction p as [|c p IH]; intros s; simpl.
  - split; [intros _; now exists s | intros _; destruct s; reflexivity].
  - destruct s as [|x s]; simpl.
    + split; [discriminate | intros [t H]; discriminate].
    + destruct (ascii_dec x c) as [->|Hne].
      * rewrite IH. split; intros [t H]; exists t; congruence.
      * split; [discriminate | intros [t H]; congruence].
Qed.

Lemma HasPrefix_nil (s : gostring) : HasPrefix s [] = true.
Proof. destruct s; reflexivity. Qed.

Lemma HasSuffix_iff (s x : gostring) : HasSuffix s x = true <-> EndsWith s x.
Proof.
  unfold HasSuffix, EndsWith. rewrite andb_true_iff, Z.leb_le, eqb_gostring_true.
  split.
  - intros [Hle Heq].
    exists (firstn (Z.to_nat (len s - len x)) s).
    rewrite <- Heq at 2. symmetry. apply firstn_skipn.
  - intros [a ->]. rewrite len_app. pose proof (len_nonneg a). split; [lia|].
    replace (len a + len x - len x) with (len a) by lia.
    rewrite to_nat_len, skipn_app, skipn_all, Nat.sub_diag. reflexivity.
Qed.

Lemma Occ_nil (s : gostring) : Occ s [].
Proof. exists [], s. reflexivity. Qed.

Lemma Occ_cons (c : ascii) (t sub : gostring) : Occ t sub -> Occ (c :: t) sub.
Proof. intros [a [b ->]]. exists (c :: a), b. reflexivity. Qed.

Lemma Occ_app_l (pre s sub : gostring) : Occ s sub -> Occ (pre ++ s) sub.
Proof. induction pre; simpl; auto using Occ_cons. Qed.

Lemma Occ_app_r (s post sub : gostring) : Occ s sub -> Occ (s ++ post) sub.
Proof.
  intros [a [b ->]]. exists a, (b ++ post). now rewrite <- !app_assoc.
Qed.

Lemma Occ_cons_inv (c : ascii) (t sub : gostring) :
  Occ (c :: t) sub -> HasPrefix (c :: t) sub = true \/ Occ t sub.
Proof.
  intros [a [b H]]. destruct a as [|x a]; simpl in H.
  - left. apply HasPrefix_iff. now exists b.
  - right. injection H as _ ->. now exists a, b.
Qed.

Lemma Occ_empty (sub : gostring) : Occ [] sub <-> sub = [].
Proof.
  split.
  - intros [a [b H]]. symmetry in H.
    apply app_eq_nil in H as [_ H]. now apply app_eq_nil in H as [H _].
  - intros ->. apply Occ_nil.
Qed.

Lemma Occ_single (c : ascii) (s : gostring) : Occ s [c] <-> In c s.
Proof.
  split.
  - intros [a [b ->]]. apply in_or_app. right. now left.
  - intros H. apply in_split in H as [a [b ->]]. now exists a, b.
Qed.

Lemma Occ_length (s sub : gostring) : Occ s sub -> len sub <= len s.
Proof.
  intros [a [b ->]]. rewrite !len_app.
  pose proof (len_nonneg a). pose proof (len_nonneg b). lia.
Qed.

(** An occurrence of [sub] in [x ++ c :: y] lies in [x] or in [y] when [c] is
    not a byte of [sub]. *)
Lemma Occ_through_sep (x y sub : gostring) (c : ascii) :
  ~ In c sub -> Occ (x ++ c :: y) sub -> Occ x sub \/ Occ y sub.
Proof.
  intros Hc [a [b H]].
  apply app_eq_app in H as [l [[Hx Hy] | [Ha Hy]]].
  - apply app_eq_app in Hy as [l' [[Hs Hb] | [Hl Hb]]].
    + destruct l' as [|z l'].
      * left. exists a, []. rewrite app_nil_r in *. now subst.
      * exfalso. apply Hc. simpl in Hb. injection Hb as -> _.
        subst sub. apply in_or_app. right. now left.
    + left. exists a, l'. now subst.
  - destruct l as [|z l].
    + simpl in Hy. destruct sub as [|z sub].
      * left. exists x, []. now rewrite app_nil_r.
      * exfalso. apply Hc. simpl in Hy. injection Hy as -> _. now left.
    + right. simpl in Hy. injection Hy as _ ->. now exists l, b.
Qed.

Lemma LastIndex_ge (s sub : gostring) : -1 <= LastIndex s sub.
Proof.
  induction s as [|c t IH]; cbn [LastIndex Index].
  - destruct sub; simpl; lia.
  - destruct (0 <=? LastIndex t sub) eqn:E.
    + apply Z.leb_le in E. lia.
    + destruct (HasPrefix (c :: t) sub); lia.
Qed.

Lemma LastIndex_Occ (s sub : gostring) : 0 <= LastIndex s sub -> Occ s sub.
Proof.
  induction s as [|c t IH]; cbn [LastIndex Index].
  - destruct sub; simpl; [intros _; apply Occ_nil | lia].
  - destruct (0 <=? LastIndex t sub) eqn:E.
    + apply Z.leb_le in E. intros _. apply Occ_cons. auto.
    + destruct (HasPrefix (c :: t) sub) eqn:P; [|lia].
      intros _. apply HasPrefix_iff in P as [r P]. exists [], r. exact P.
Qed.

Lemma Occ_LastIndex (s sub : gostring) : Occ s sub -> 0 <= LastIndex s sub.
Proof.
  induction s as [|c t IH]; cbn [LastIndex Index].
  - rewrite Occ_empty. intros ->. simpl. lia.
  - intros H. destruct (0 <=? LastIndex t sub) eqn:E.
    + apply Z.leb_le in E. lia.
    + apply Z.leb_gt in E. apply Occ_cons_inv in H as [H|H].
      * rewrite H. lia.
      * apply IH in H. lia.
Qed.

Lemma LastIndex_neg_iff (s sub : gostring) :
  LastIndex s sub < 0 <-> ~ Occ s sub.
Proof.
  split.
  - intros H O. apply Occ_LastIndex in O. lia.
  - intros H. destruct (Z.lt_ge_cases (LastIndex s sub) 0) as [L|L]; [exact L|].
    exfalso. apply H. now apply LastIndex_Occ.
Qed.

Lemma LastIndex_absent (s sub : gostring) :
  ~ Occ s sub -> LastIndex s sub = -1.
Proof.
  intros H. apply LastIndex_neg_iff in H. pose proof (LastIndex_ge s sub). lia.
Qed.

Lemma LastIndex_le (s sub : gostring) : LastIndex s sub <= len s.
Proof.
  induction s as [|c t IH]; cbn [LastIndex Index].
  - destruct sub; cbn; lia.
  - rewrite len_cons. pose proof (len_nonneg t).
    destruct (0 <=? LastIndex t sub); [lia|].
    destruct (HasPrefix (c :: t) sub); lia.
Qed.

Lemma LastIndex_app (pre s sub : gostring) :
  0 <= LastIndex s sub ->
  LastIndex (pre ++ s) sub = len pre + LastIndex s sub.
Proof.
  intros H. induction pre as [|c pre IH]; cbn [LastIndex app].
  - rewrite len_nil. lia.
  - rewrite IH, len_cons. pose proof (len_nonneg pre).
    replace (0 <=? len pre + LastIndex s sub) with true
      by (symmetry; apply Z.leb_le; lia).
    lia.
Qed.

Lemma LastIndex_here (s sub : gostring) :
  HasPrefix s sub = true -> ~ Occ (tl s) sub -> LastIndex s sub = 0.
Proof.
  intros P H. destruct s as [|c t]; cbn [LastIndex tl] in *.
  - destruct sub; [|discriminate]. exfalso. apply H, Occ_nil.
  - apply LastIndex_neg_iff in H.
    replace (0 <=? LastIndex t sub) with false
      by (symmetry; apply Z.leb_gt; lia).
    rewrite P. reflexivity.
Qed.

Lemma LastIndex_empty (s : gostring) : LastIndex s [] = len s.
Proof.
  induction s as [|c t IH]; cbn [LastIndex]; [reflexivity|].
  rewrite IH, len_cons. pose proof (len_nonneg t).
  replace (0 <=? len t) with true by (symmetry; apply Z.leb_le; lia).
  reflexivity.
Qed.

(** The last occurrence of a byte. *)
Lemma LastIndex_byte (pre post : gostring) (c : ascii) :
  ~ In c post -> LastIndex (pre ++ c :: post) [c] = len pre.
Proof.
  intros H.
  assert (E : LastIndex (c :: post) [c] = 0).
  { apply LastIndex_here.
    - simpl. destruct (ascii_dec c c); [apply HasPrefix_nil | congruence].
    - simpl. now rewrite Occ_single. }
  rewrite LastIndex_app; rewrite E; lia.
Qed.

Lemma LastIndex_no_byte (s : gostring) (c : ascii) :
  ~ In c s -> LastIndex s [c] = -1.
Proof. intros H. apply LastIndex_absent. now rewrite Occ_single. Qed.

Lemma Index_ge (s sub : gostring) : -1 <= Index s sub.
Proof.
  induction s as [|c t IH]; cbn [LastIndex Index].
  - destruct sub; simpl; lia.
  - destruct (HasPrefix (c :: t) sub); [lia|].
    destruct (Index t sub <? 0) eqn:E; [lia|]. apply Z.ltb_ge in E. lia.
Qed.

Lemma Index_Occ (s sub : gostring) : 0 <= Index s sub <-> Occ s sub.
Proof.
  induction s as [|c t IH]; cbn [LastIndex Index].
  - rewrite Occ_empty. destruct sub; simpl; split; try lia; congruence.
  - destruct (HasPrefix (c :: t) sub) eqn:P.
    + split; [|lia]. intros _. apply HasPrefix_iff in P as [r P].
      exists [], r. exact P.
    + destruct (Index t sub <? 0) eqn:E.
      * apply Z.ltb_lt in E. split; [lia|]. intros H.
        apply Occ_cons_inv in H as [H|H]; [congruence|]. apply IH in H. lia.
      * apply Z.ltb_ge in E. split; [|lia]. intros _.
        apply Occ_cons. now apply IH.
Qed.

Lemma Contains_iff (s sub : gostring) : Contains s sub = true <-> Occ s sub.
Proof. unfold Contains. rewrite Z.leb_le. apply Index_Occ. Qed.

Lemma Contains_false_iff (s sub : gostring) :
  Contains s sub = false <-> ~ Occ s sub.
Proof.
  rewrite <- Contains_iff. destruct (Contains s sub); split; congruence.
Qed.

Lemma Index_le (s sub : gostring) : Index s sub <= len s.
Proof.
  induction s as [|c t IH]; cbn [LastIndex Index].
  - destruct sub; cbn; lia.
  - rewrite len_cons. pose proof (len_nonneg t).
    destruct (HasPrefix (c :: t) sub); [lia|].
    destruct (Index t sub <? 0); lia.
Qed.

Lemma Split_not_nil (s : gostring) (c : ascii) : Split s c <> [].
Proof.
  destruct s as [|x t]; simpl; [discriminate|].
  destruct (ascii_dec x c); [discriminate|].
  destruct (Split t c); discriminate.
Qed.

Lemma Split_no_sep (s : gostring) (c : ascii) (seg : gostring) :
  In seg (Split s c) -> ~ In c seg.
Proof.
  revert seg. induction s as [|x t IH]; simpl; intros seg H.
  - destruct H as [<-|[]]. auto.
  - destruct (ascii_dec x c) as [->|Hne].
    + destruct H as [<-|H]; auto.
    + destruct (Split t c) as [|p ps] eqn:E.
      * destruct H as [<-|[]]. intros [?|[]]. congruence.
      * destruct H as [<-|H].
        -- intros [?|H]; [congruence|]. apply (IH p); [now left | exact H].
        -- apply IH. now right.
Qed.

Lemma Join_cons (e x : gostring) (rest : list gostring) (sep : gostring) :
  Join (e :: x :: rest) sep = e ++ sep ++ Join (x :: rest) sep.
Proof. reflexivity. Qed.

Lemma Join_app (a : list gostring) (x : gostring) (b : list gostring)
    (sep : gostring) :
  a <> [] ->
  Join (a ++ x :: b) sep = Join a sep ++ sep ++ Join (x :: b) sep.
Proof.
  induction a as [|e a IH]; [congruence|]. intros _.
  destruct a as [|e' a].
  - reflexivity.
  - change ((e :: e' :: a) ++ x :: b) with (e :: e' :: (a ++ x :: b)).
    rewrite !Join_cons. change (e' :: a ++ x :: b) with ((e' :: a) ++ x :: b).
    rewrite IH by discriminate. now rewrite <- !app_assoc.
Qed.

Lemma Join_Split (s : gostring) (c : ascii) : Join (Split s c) [c] = s.
Proof.
  induction s as [|x t IH]; simpl; [reflexivity|].
  destruct (ascii_dec x c) as [->|Hne].
  - pose proof (Split_not_nil t c) as N.
    destruct (Split t c) as [|p ps]; [congruence|].
    rewrite Join_cons, IH. reflexivity.
  - pose proof (Split_not_nil t c) as N.
    destruct (Split t c) as [|p ps]; [congruence|].
    destruct ps as [|q ps].
    + simpl in *. now rewrite IH.
    + rewrite Join_cons in *. rewrite <- IH. reflexivity.
Qed.

Lemma Join_nonempty (segs : list gostring) (sep : gostring) :
  segs <> [] -> List.last segs [] <> [] -> Join segs sep <> [].
Proof.
  induction segs as [|e rest IH]; [congruence|]. intros _ L.
  destruct rest as [|x rest].
  - exact L.
  - rewrite Join_cons. intros E. apply app_eq_nil in E as [_ E].
    apply app_eq_nil in E as [_ E]. revert E. apply IH; [discriminate|exact L].
Qed.

(** A byte of a string has a last position. *)
Lemma last_position (c : ascii) (s : gostring) :
  In c s -> exists pre post, s = pre ++ c :: post /\ ~ In c post.
Proof.
  induction s as [|x t IH]; [intros []|]. intros H.
  destruct (in_dec ascii_dec c t) as [I|N].
  - destruct (IH I) as [pre [post [-> P]]]. now exists (x :: pre), post.
  - destruct H as [->|H]; [|contradiction]. now exists [], t.
Qed.

(** Either no segment carries a marker, or there is a first one that does. *)
Lemma first_marker (parts : list gostring) :
  (forall seg, In seg parts -> ~ In at_sign seg) \/
  exists before pre post after,
    parts = before ++ (pre ++ at_sign :: post) :: after /\
    (forall seg, In seg before -> ~ In at_sign seg) /\
    ~ In at_sign post.
Proof.
  induction parts as [|seg rest IH].
  - left. intros seg [].
  - destruct (in_dec ascii_dec at_sign seg) as [I|N].
    + right. apply last_position in I as [pre [post [-> P]]].
      exists [], pre, post, rest.
      split; [reflexivity | split; [intros s [] | exact P]].
    + destruct IH as [IH | [before [pre [post [after [-> [B P]]]]]]].
      * left. intros s [<-|H]; auto.
      * right. exists (seg :: before), pre, post, after.
        split; [reflexivity | split; [intros s [<-|H]; auto | exact P]].
Qed.

Lemma hasMarker_false (seg : gostring) :
  hasMarker seg = false <-> ~ In at_sign seg.
Proof.
  unfold hasMarker. destruct (in_dec ascii_dec at_sign seg); split;
    congruence || contradiction || auto.
Qed.

Lemma no_marker_iff (parts : list gostring) :
  existsb hasMarker parts = false <->
  (forall seg, In seg parts -> ~ In at_sign seg).
Proof.
  induction parts as [|seg rest IH]; simpl.
  - split; [intros _ s [] | reflexivity].
  - rewrite orb_false_iff, IH, hasMarker_false. split.
    + intros [H1 H2] s [<-|H]; auto.
    + intros H. split; [apply H; now left | intros s Hs; apply H; now right].
Qed.

(** ** The loop of [resolveImportPath] *)

Import Resolver.

Lemma scanBody_next (path : gostring) (spec : SourceSpec)
    (done : list gostring) (seg : gostring) (rest : list gostring) :
  ~ In at_sign seg ->
  scanBody path spec (done ++ seg :: rest) (len done) = Ok Next.
Proof.
  intros N. unfold scanBody. rewrite index_app. cbn [bind].
  change (lit "@") with [at_sign]. rewrite LastIndex_no_byte by exact N.
  reflexivity.
Qed.

Lemma scanLoop_skip (before : list gostring) :
  forall (done rest : list gostring) (n : nat) (path : gostring)
         (spec : SourceSpec),
  (forall seg, In seg before -> ~ In at_sign seg) ->
  scanLoop (List.length before + n) path spec (done ++ before ++ rest) (len done)
  = scanLoop n path spec (done ++ before ++ rest) (len done + len before).
Proof.
  induction before as [|seg before IH]; intros done rest n path spec H.
  - simpl. rewrite len_nil, Z.add_0_r. reflexivity.
  - cbn [List.length Nat.add scanLoop app].
    rewrite scanBody_next by (apply H; now left). cbn [bind].
    replace (done ++ seg :: before ++ rest)
      with ((done ++ [seg]) ++ before ++ rest)
      by (rewrite <- app_assoc; reflexivity).
    replace (len done + 1) with (len (done ++ [seg]))
      by (rewrite len_app; reflexivity).
    rewrite IH by (intros s Hs; apply H; now right).
    rewrite len_app, len_cons. f_equal. rewrite len_cons, len_nil. lia.
Qed.

Lemma scanLoop_none (path : gostring) (spec : SourceSpec)
    (parts : list gostring) :
  (forall seg, In seg parts -> ~ In at_sign seg) ->
  scanLoop (List.length parts) path spec parts 0 = Ok (Break spec parts).
Proof.
  intros H.
  pose proof (scanLoop_skip parts [] [] 0 path spec H) as E.
  rewrite Nat.add_0_r, app_nil_r in E. simpl in E. exact E.
Qed.

Lemma sliceFrom_middle {A : Type} (a : list A) (x : A) (b : list A) :
  sliceFrom (a ++ x :: b) (len a + 1) = Ok b.
Proof.
  replace (a ++ x :: b) with ((a ++ [x]) ++ b)
    by (rewrite <- app_assoc; reflexivity).
  replace (len a + 1) with (len (a ++ [x])) by (rewrite len_app; reflexivity).
  apply sliceFrom_app.
Qed.

Lemma sliceTo_middle {A : Type} (a : list A) (x : A) (b : list A) :
  sliceTo (a ++ x :: b) (len a + 1) = Ok (a ++ [x]).
Proof.
  replace (a ++ x :: b) with ((a ++ [x]) ++ b)
    by (rewrite <- app_assoc; reflexivity).
  replace (len a + 1) with (len (a ++ [x])) by (rewrite len_app; reflexivity).
  apply sliceTo_app.
Qed.

Lemma scanLoop_found (path : gostring) (spec : SourceSpec)
    (before : list gostring) (pre post : gostring) (after : list gostring) :
  (forall seg, In seg before -> ~ In at_sign seg) ->
  ~ In at_sign post ->
  scanLoop (List.length (before ++ (pre ++ at_sign :: post) :: after)) path spec
    (before ++ (pre ++ at_sign :: post) :: after) 0
  = Ok (if HasPrefix path [slash]
        then Break (mkSourceSpec (Repo spec) (Join after [slash]) post)
                   (before ++ pre :: after)
        else Return (mkSourceSpec (Join (before ++ [pre]) [slash])
                       (Join after [slash]) post)).
Proof.
  intros B P.
  rewrite length_app.
  pose proof (scanLoop_skip before [] ((pre ++ at_sign :: post) :: after)
                (List.length ((pre ++ at_sign :: post) :: after)) path spec B) as E.
  simpl app in E. change (len (@nil gostring)) with 0 in E.
  etransitivity; [exact E|]. clear E.
  rewrite Z.add_0_l. cbn [List.length scanLoop].
  unfold scanBody. rewrite index_app. cbn [bind].
  change (lit "@") with [at_sign]. rewrite LastIndex_byte by exact P.
  pose proof (len_nonneg pre) as Lp.
  replace (0 <=? len pre) with true by (symmetry; apply Z.leb_le; lia).
  rewrite sliceFrom_middle, sliceTo_app. cbn [bind].
  rewrite to_nat_len, update_app.
  rewrite sliceFrom_middle, sliceTo_middle. cbn [bind].
  change (lit "/") with [slash].
  destruct (HasPrefix path [slash]); reflexivity.
Qed.

Lemma hasMarker_app (pre post : gostring) :
  hasMarker (pre ++ at_sign :: post) = true.
Proof.
  unfold hasMarker. destruct (in_dec ascii_dec at_sign _) as [|N]; [reflexivity|].
  exfalso. apply N, in_or_app. right. now left.
Qed.

(** What the loop leaves behind, by the shape of the recorded path. *)
Lemma scan_cases (path : gostring) :
  let parts := Split path slash in
  (existsb hasMarker parts = false /\
   scanLoop (List.length parts) path zeroSpec parts 0 = Ok (Break zeroSpec parts))
  \/
  (exists before pre post after,
     parts = before ++ (pre ++ at_sign :: post) :: after /\
     existsb hasMarker before = false /\
     hasMarker post = false /\
     scanLoop (List.length parts) path zeroSpec parts 0
     = Ok (if HasPrefix path [slash]
           then Break (mkSourceSpec [] (Join after [slash]) post)
                      (before ++ pre :: after)
           else Return (mkSourceSpec (Join (before ++ [pre]) [slash])
                          (Join after [slash]) post))).
Proof.
  intros parts. destruct (first_marker parts) as [N | [before [pre [post [after [E [B P]]]]]]].
  - left. split; [now apply no_marker_iff | now apply scanLoop_none].
  - right. exists before, pre, post, after.
    split; [exact E|]. split; [now apply no_marker_iff|].
    split; [now apply hasMarker_false|].
    rewrite E. now apply scanLoop_found.
Qed.

Lemma isDirectForm_marker (path : gostring) (before : list gostring)
    (pre post : gostring) (after : list gostring) :
  Split path slash = before ++ (pre ++ at_sign :: post) :: after ->
  isDirectForm path = negb (HasPrefix path [slash]).
Proof.
  intros E. unfold isDirectForm. rewrite E, existsb_app. simpl.
  rewrite hasMarker_app. simpl. now rewrite orb_true_r, andb_true_r.
Qed.

(** An occurrence in a joined path of a string without separator lies in one
    of the segments. *)
Lemma Occ_Join (segs : list gostring) (sub : gostring) :
  sub <> [] -> ~ In slash sub -> Occ (Join segs [slash]) sub ->
  exists seg, In seg segs /\ Occ seg sub.
Proof.
  intros Hne Hs. induction segs as [|e rest IH]; intros O.
  - simpl in O. apply Occ_empty in O. contradiction.
  - destruct rest as [|x rest].
    + exists e. split; [now left | exact O].
    + rewrite Join_cons in O. simpl app in O.
      apply Occ_through_sep in O as [O|O]; [| |exact Hs].
      * exists e. split; [now left | exact O].
      * destruct (IH O) as [seg [I O']]. exists seg. split; [now right | exact O'].
Qed.

Lemma not_Occ_tail (c : ascii) (t : gostring) : ~ Occ t (c :: t).
Proof.
  intros O. apply Occ_length in O. rewrite len_cons in O. lia.
Qed.

(** Where [strings.LastIndex] finds a segment that occurs in no later one. *)
Lemma LastIndex_segment (path : gostring) (before : list gostring)
    (first : gostring) (after : list gostring) :
  Split path slash = before ++ first :: after ->
  (forall seg, In seg after -> ~ Occ seg first) ->
  exists P, path = P ++ Join (first :: after) [slash] /\
            LastIndex path first = len P.
Proof.
  intros E N.
  assert (Hs : ~ In slash first).
  { apply (Split_no_sep path). rewrite E. apply in_or_app. right. now left. }
  assert (J : LastIndex (Join (first :: after) [slash]) first = 0).
  { destruct first as [|c f].
    - destruct after as [|seg after].
      + reflexivity.
      + exfalso. apply (N seg); [now left | apply Occ_nil].
    - apply LastIndex_here.
      + apply HasPrefix_iff. destruct after as [|x after].
        * exists []. simpl. now rewrite app_nil_r.
        * rewrite Join_cons. eexists. reflexivity.
      + destruct after as [|x after].
        * simpl. apply not_Occ_tail.
        * rewrite Join_cons. cbn [app tl]. intros O.
          apply Occ_through_sep in O as [O|O]; [| |exact Hs].
          -- now apply not_Occ_tail in O.
          -- apply Occ_Join in O as [seg [I O]]; [|discriminate|exact Hs].
             now apply (N seg). }
  exists (match before with [] => [] | _ => Join before [slash] ++ [slash] end).
  assert (D : path = match before with [] => [] | _ => Join before [slash] ++ [slash] end
                     ++ Join (first :: after) [slash]).
  { rewrite <- (Join_Split path slash) at 1. rewrite E.
    destruct before as [|b before]; [reflexivity|].
    rewrite Join_app by discriminate. now rewrite <- app_assoc. }
  split; [exact D|].
  rewrite D at 1. rewrite LastIndex_app; rewrite J; lia.
Qed.

Lemma not_Contains_forall (first : gostring) (after : list gostring) :
  forallb (fun seg => negb (Contains seg first)) after = true ->
  forall seg, In seg after -> ~ Occ seg first.
Proof.
  rewrite forallb_forall. intros H seg I. apply H in I.
  apply negb_true_iff in I. now apply Contains_false_iff.
Qed.

(** ** The test cases of [src/source_test.go] *)

Module ResolverTests.
Import Resolver.

Example test_stdlib :
  resolveImportPath (lit "runtime.gopark")
    (lit "/nix/store/v6i0a6bfx3707airawpc2589pbbl465r-go-1.19.5/share/go/src/runtime/proc.go")
  = Ok (mkSourceSpec [] (lit "runtime/proc.go") []).
Proof. vm_compute. reflexivity. Qed.

Example test_stdlib_more_path_segments :
  resolveImportPath (lit "compress/gzip.(*Writer).Reset")
    (lit "/opt/hostedtoolcache/go/1.19.6/x64/src/compress/gzip/gzip.go")
  = Ok (mkSourceSpec [] (lit "compress/gzip/gzip.go") []).
Proof. vm_compute. reflexivity. Qed.

Example test_go_mod_abs_path :
  resolveImportPath (lit "github.com/felixge/httpsnoop.(*Metrics).CaptureMetrics")
    (lit "/home/runner/go/pkg/mod/github.com/felixge/httpsnoop@v1.0.3/capture_metrics.go")
  = Ok (mkSourceSpec (lit "github.com/felixge/httpsnoop") (lit "capture_metrics.go") (lit "v1.0.3")).
Proof. vm_compute. reflexivity. Qed.

Example test_go_mod_relative :
  resolveImportPath
    (lit "sigs.k8s.io/controller-runtime/pkg/internal/controller.(*Controller).processNextWorkItem")
    (lit "sigs.k8s.io/controller-runtime@v0.13.1/pkg/internal/controller/controller.go")
  = Ok (mkSourceSpec (lit "sigs.k8s.io/controller-runtime")
          (lit "pkg/internal/controller/controller.go") (lit "v0.13.1")).
Proof. vm_compute. reflexivity. Qed.

Example test_go_mod_relative_no_revision :
  resolveImportPath [] (lit "github.com/aws/aws-sdk-go@v1.44.163/aws/endpoints/defaults.go")
  = Ok (mkSourceSpec (lit "github.com/aws/aws-sdk-go")
          (lit "aws/endpoints/defaults.go") (lit "v1.44.163")).
Proof. vm_compute. reflexivity. Qed.

Example test_go_main :
  resolveImportPath (lit "github.com/grafana/phlare/pkg/phlaredb.(*profileStore).cutRowGroup")
    (lit "/home/runner/work/phlare/phlare/pkg/phlaredb/profile_store.go")
  = Ok (mkSourceSpec (lit "github.com/grafana/phlare")
          (lit "pkg/phlaredb/profile_store.go") []).
Proof. vm_compute. reflexivity. Qed.

End ResolverTests.

(** ** Properties of [resolveImportPath] *)

Section Resolution.
Import Resolver.

Lemma resolve_not_direct (function path : gostring) :
  isDirectForm path = false ->
  exists spec pathParts,
    resolveImportPath function path = afterScan function path spec pathParts.
Proof.
  intros D. unfold resolveImportPath.
  destruct (scan_cases path) as [[_ ->] | [before [pre [post [after [E [_ [_ ->]]]]]]]].
  - now exists zeroSpec, (Split path slash).
  - rewrite (isDirectForm_marker _ _ _ _ _ E) in D.
    apply negb_false_iff in D. rewrite D. cbn [bind]. eauto.
Qed.

(** C1. A recorded path that does not begin with "/" and whose first segment
    with an "@" is [pre ++ "@" ++ post], [post] being what follows its last
    "@", between the segments [before] and [after], is resolved at once, for
    every symbol and for the empty one: the repository is the join of
    [before] and [pre], the revision is [post], and the relative path is the
    join of [after]. *)
Theorem direct_form_resolution (function path : gostring)
    (before : list gostring) (pre post : gostring) (after : list gostring) :
  HasPrefix path [slash] = false ->
  Split path slash = before ++ (pre ++ at_sign :: post) :: after ->
  existsb hasMarker before = false ->
  hasMarker post = false ->
  resolveImportPath function path
  = Ok (mkSourceSpec (Join (before ++ [pre]) [slash]) (Join after [slash]) post).
Proof.
  intros A E B P. unfold resolveImportPath. rewrite E.
  rewrite scanLoop_found.
  - rewrite A. reflexivity.
  - now apply no_marker_iff.
  - now apply hasMarker_false.
Qed.

Lemma direct_form_resolution_witness :
  resolveImportPath []
    (lit "github.com/aws/aws-sdk-go@v1.44.163/aws/endpoints/defaults.go")
  = Ok (mkSourceSpec
          (Join ([lit "github.com"; lit "aws"] ++ [lit "aws-sdk-go"]) [slash])
          (Join [lit "aws"; lit "endpoints"; lit "defaults.go"] [slash])
          (lit "v1.44.163")).
Proof.
  apply (direct_form_resolution []
           (lit "github.com/aws/aws-sdk-go@v1.44.163/aws/endpoints/defaults.go")
           [lit "github.com"; lit "aws"] (lit "aws-sdk-go") (lit "v1.44.163")
           [lit "aws"; lit "endpoints"; lit "defaults.go"]);
    reflexivity.
Defined.

(** C2, at an input the code can receive: a symbol of five qualifier parts
    with a recorded path of one segment.  The repository takes three parts,
    two remain, and the start of the tail is 1 - 2 - 1 = -2: the slice
    expression [pathParts[startIndex:]] panics. *)
Theorem resolve_panics_on_short_path :
  resolveImportPath
    (lit "github.com/grafana/phlare/pkg/phlaredb.(*profileStore).cutRowGroup")
    (lit "profile_store.go")
  = Panic.
Proof. vm_compute. reflexivity. Qed.

(** The direct form comes first: a symbol of the standard library with a
    recorded path in the direct form is resolved to the module of the path. *)
Example stdlib_symbol_direct_form :
  isEmpty (lit "runtime.gopark") = false /\
  qualifierParts (lit "runtime.gopark") = Ok [lit "runtime"] /\
  Contains (lit "runtime") [dot] = false /\
  resolveImportPath (lit "runtime.gopark")
    (lit "golang.org/x/sys@v0.1.0/runtime/proc.go")
  = Ok (mkSourceSpec (lit "golang.org/x/sys") (lit "runtime/proc.go") (lit "v0.1.0")) /\
  resolveImportPath (lit "runtime.gopark")
    (lit "golang.org/x/sys@v0.1.0/runtime/proc.go")
  <> Ok (mkSourceSpec [] (lit "runtime/proc.go") []).
Proof.
  repeat split; try (vm_compute; reflexivity).
  vm_compute. discriminate.
Qed.

(** Where the search of the code and the segments agree.  Let the symbol be
    not empty and its first qualifier part [first] have no ".".  If the
    recorded path is not in the direct form, has [first] as a whole segment,
    and no later segment contains [first], then the result is of the standard
    library: repository and revision empty, and the relative path the
    recorded path from that segment on. *)
Lemma stdlib_resolution (function path first : gostring)
    (others before after : list gostring) :
  isEmpty function = false ->
  qualifierParts function = Ok (first :: others) ->
  Contains first [dot] = false ->
  isDirectForm path = false ->
  Split path slash = before ++ first :: after ->
  forallb (fun seg => negb (Contains seg first)) after = true ->
  resolveImportPath function path
  = Ok (mkSourceSpec [] (Join (first :: after) [slash]) []).
Proof.
  intros F Q C D E N.
  destruct (resolve_not_direct function path D) as [spec [pathParts ->]].
  unfold afterScan. rewrite F, Q. cbn [bind].
  rewrite index_ok by (unfold len; cbn [List.length]; lia).
  cbn [bind Z.to_nat nth]. change (lit ".") with [dot]. rewrite C. cbn [negb].
  destruct (LastIndex_segment path before first after E
              (not_Contains_forall first after N)) as [P [Hp Hl]].
  rewrite Hl. pose proof (len_nonneg P).
  replace (0 <=? len P) with true by (symmetry; apply Z.leb_le; lia).
  rewrite Hp at 1. rewrite sliceFrom_app. reflexivity.
Qed.

Lemma stdlib_resolution_witness :
  resolveImportPath (lit "compress/gzip.(*Writer).Reset")
    (lit "/opt/hostedtoolcache/go/1.19.6/x64/src/compress/gzip/gzip.go")
  = Ok (mkSourceSpec []
          (Join (lit "compress" :: [lit "gzip"; lit "gzip.go"]) [slash]) []).
Proof.
  apply (stdlib_resolution (lit "compress/gzip.(*Writer).Reset")
           (lit "/opt/hostedtoolcache/go/1.19.6/x64/src/compress/gzip/gzip.go")
           (lit "compress") [lit "gzip"]
           [[]; lit "opt"; lit "hostedtoolcache"; lit "go"; lit "1.19.6";
            lit "x64"; lit "src"]
           [lit "gzip"; lit "gzip.go"]);
    reflexivity.
Defined.

(** C4, at an input the code can receive: the function time.Now with the
    file time.go of its package.  The symbol is not empty, its first
    qualifier part "time" has no ".", and the recorded path is not of the
    direct form.  The portion of the recorded path from the last segment
    "time" on is time/time.go; [resolveImportPath] looks for "time" with
    [strings.LastIndex], as a substring, finds it last inside the file name,
    and returns time.go. *)
Theorem stdlib_match_inside_segment :
  let function := lit "time.Now" in
  let path := lit "/usr/local/go/src/time/time.go" in
  isEmpty function = false /\
  qualifierParts function = Ok [lit "time"] /\
  Contains (lit "time") [dot] = false /\
  isDirectForm path = false /\
  option_map (fun segments => Join segments [slash])
    (fromLastSegment (lit "time") (Split path slash))
  = Some (lit "time/time.go") /\
  resolveImportPath function path = Ok (mkSourceSpec [] (lit "time.go") []).
Proof. repeat split; vm_compute; reflexivity. Qed.

(** C5 as stated fails: the symbol has four qualifier parts, so N = 2, and
    the recorded path is absolute with its marker in the cache directory.
    The relative path found behind the marker is kept; it is not the trailing
    two segments of the recorded path. *)
Lemma hosted_marker_counterexample :
  let function := lit "github.com/cespare/xxhash/v2.Sum64" in
  let path := lit "/home/runner/go/pkg/mod/github.com/cespare/xxhash/v2@v2.1.2/xxhash.go" in
  isEmpty function = false /\
  qualifierParts function
  = Ok [lit "github.com"; lit "cespare"; lit "xxhash"; lit "v2"] /\
  Contains (lit "github.com") [dot] = true /\
  isDirectForm path = false /\
  Join (trailing 2 (Split path slash)) [slash] = lit "v2@v2.1.2/xxhash.go" /\
  resolveImportPath function path
  = Ok (mkSourceSpec (lit "github.com/cespare/xxhash") (lit "xxhash.go") (lit "v2.1.2")).
Proof. repeat split; vm_compute; reflexivity. Qed.

Lemma marker_present (before : list gostring) (pre post : gostring)
    (after : list gostring) :
  existsb hasMarker (before ++ (pre ++ at_sign :: post) :: after) = true.
Proof.
  rewrite existsb_app. simpl. rewrite hasMarker_app. simpl.
  apply orb_true_r.
Qed.

(** C5, amended.  Let the symbol be not empty, with at least three qualifier
    parts of which the first has a ".", and let [rest] be the parts after the
    third.  If no segment of the recorded path has an "@" and the path has at
    least N segments, N being one more than the length of [rest], then the
    repository is the join of the first three parts and the relative path is
    the join of the trailing N segments. *)
Theorem hosted_reconstruction (function path p1 p2 p3 : gostring)
    (rest : list gostring) :
  isEmpty function = false ->
  qualifierParts function = Ok (p1 :: p2 :: p3 :: rest) ->
  Contains p1 [dot] = true ->
  existsb hasMarker (Split path slash) = false ->
  (List.length rest + 1 <= List.length (Split path slash))%nat ->
  resolveImportPath function path
  = Ok (mkSourceSpec (Join [p1; p2; p3] [slash])
          (Join (trailing (List.length rest + 1) (Split path slash)) [slash])
          []).
Proof.
  intros F Q C M L. unfold resolveImportPath.
  destruct (scan_cases path) as [[_ ->] | [before [pre [post [after [E _]]]]]].
  2:{ rewrite E, marker_present in M. discriminate. }
  cbn [bind]. unfold afterScan. rewrite F, Q. cbn [bind].
  rewrite index_ok by (unfold len; cbn [List.length]; lia).
  cbn [bind Z.to_nat nth]. change (lit ".") with [dot]. rewrite C. cbn [negb].
  unfold reconstruct. cbn [zeroSpec Repo RelativePath Revision isEmpty].
  replace (3 <=? len (p1 :: p2 :: p3 :: rest)) with true
    by (symmetry; apply Z.leb_le; unfold len; cbn [List.length]; lia).
  rewrite sliceTo_ok, sliceFrom_ok by (unfold len; cbn [List.length]; lia).
  cbn [bind]. change (Z.to_nat 3) with 3%nat. cbn [firstn skipn isEmpty].
  rewrite sliceFrom_ok by (unfold len; lia).
  cbn [bind]. cbn [Repo RelativePath Revision isEmpty].
  change (lit "/") with [slash]. unfold trailing.
  do 3 f_equal. unfold len. f_equal. lia.
Qed.

Lemma hosted_reconstruction_witness :
  resolveImportPath
    (lit "github.com/grafana/phlare/pkg/phlaredb.(*profileStore).cutRowGroup")
    (lit "/home/runner/work/phlare/phlare/pkg/phlaredb/profile_store.go")
  = Ok (mkSourceSpec
          (Join [lit "github.com"; lit "grafana"; lit "phlare"] [slash])
          (Join (trailing (List.length [lit "pkg"; lit "phlaredb"] + 1)
                   (Split (lit "/home/runner/work/phlare/phlare/pkg/phlaredb/profile_store.go")
                      slash)) [slash])
          []).
Proof.
  apply (hosted_reconstruction
           (lit "github.com/grafana/phlare/pkg/phlaredb.(*profileStore).cutRowGroup")
           (lit "/home/runner/work/phlare/phlare/pkg/phlaredb/profile_store.go")
           (lit "github.com") (lit "grafana") (lit "phlare")
           [lit "pkg"; lit "phlaredb"]);
    try reflexivity.
  vm_compute. lia.
Defined.

(** C7 as stated fails: the direct form with the marker in the final segment
    succeeds with an empty relative path. *)
Lemma empty_relative_path_counterexample :
  resolveImportPath [] (lit "github.com/aws/aws-sdk-go@v1.44.163")
  = Ok (mkSourceSpec (lit "github.com/aws/aws-sdk-go") [] (lit "v1.44.163")).
Proof. vm_compute. reflexivity. Qed.

Lemma LastIndex_bound (s sub : gostring) :
  0 <= LastIndex s sub -> LastIndex s sub + len sub <= len s.
Proof.
  induction s as [|c t IH]; cbn [LastIndex].
  - destruct sub; cbn; [lia | intros; lia].
  - rewrite len_cons. destruct (0 <=? LastIndex t sub) eqn:E.
    + apply Z.leb_le in E. intros _. specialize (IH E). lia.
    + destruct (HasPrefix (c :: t) sub) eqn:P; [|lia].
      intros _. apply HasPrefix_iff in P as [r P].
      apply (f_equal len) in P. rewrite len_cons, len_app in P.
      pose proof (len_nonneg r). lia.
Qed.

Lemma skipn_not_nil {A : Type} (k : nat) (l : list A) :
  (k < List.length l)%nat -> skipn k l <> [].
Proof.
  intros H E. apply (f_equal (@List.length A)) in E.
  rewrite length_skipn in E. simpl in E. lia.
Qed.

Lemma last_app {A : Type} (a b : list A) (d : A) :
  b <> [] -> List.last (a ++ b) d = List.last b d.
Proof.
  intros N. induction a as [|x a IH]; [reflexivity|].
  simpl. rewrite IH. destruct (a ++ b) eqn:E; [|reflexivity].
  apply app_eq_nil in E as [_ E]. contradiction.
Qed.

Lemma last_skipn {A : Type} (k : nat) (l : list A) (d : A) :
  (k < List.length l)%nat -> List.last (skipn k l) d = List.last l d.
Proof.
  intros H. rewrite <- (firstn_skipn k l) at 2.
  rewrite last_app; [reflexivity | now apply skipn_not_nil].
Qed.

Lemma Join_three_not_nil (a b c : gostring) : Join [a; b; c] [slash] <> [].
Proof. destruct a; discriminate. Qed.

(** What [reconstruct] makes of a specification without repository. *)
Lemma reconstruct_inv (path : gostring) (spec0 spec : SourceSpec)
    (parts fp : list gostring) :
  reconstruct path spec0 parts fp = Ok spec ->
  Repo spec0 = [] ->
  (Repo spec = [] -> (List.length fp < 3)%nat) /\
  (RelativePath spec0 <> [] -> RelativePath spec = RelativePath spec0) /\
  (RelativePath spec0 = [] ->
   exists k, (k < List.length parts)%nat /\
             RelativePath spec = Join (skipn k parts) [slash]).
Proof.
  intros H R0. unfold reconstruct in H. rewrite R0 in H. cbn [isEmpty] in H.
  destruct (3 <=? len fp) eqn:L3.
  - apply Z.leb_le in L3.
    rewrite sliceTo_ok, sliceFrom_ok in H by (pose proof (len_nonneg fp); lia).
    cbn [bind Repo RelativePath Revision] in H.
    destruct fp as [|a [|b [|c rest]]]; try (unfold len in L3; simpl in L3; lia).
    change (Z.to_nat 3) with 3%nat in H. cbn [firstn skipn] in H.
    destruct (isEmpty (RelativePath spec0)) eqn:I.
    + apply isEmpty_true in I.
      destruct (sliceFrom parts (len parts - len rest - 1)) as [tail| |] eqn:S;
        cbn [bind] in H; try discriminate.
      injection H as <-. cbn [Repo RelativePath].
      split; [|split].
      * intros E. exfalso. revert E. apply Join_three_not_nil.
      * intros N. contradiction.
      * intros _. unfold sliceFrom in S.
        destruct ((0 <=? len parts - len rest - 1) &&
                  (len parts - len rest - 1 <=? len parts)) eqn:B; [|discriminate].
        injection S as <-. apply andb_true_iff in B as [B1 _].
        apply Z.leb_le in B1.
        exists (Z.to_nat (len parts - len rest - 1)).
        split; [unfold len in *; lia | reflexivity].
    + apply isEmpty_false in I. injection H as <-. cbn [Repo RelativePath].
      split; [|split].
      * intros E. exfalso. revert E. apply Join_three_not_nil.
      * reflexivity.
      * intros E. contradiction.
  - apply Z.leb_gt in L3. cbn [bind] in H.
    destruct (isEmpty (RelativePath spec0)) eqn:I.
    + apply isEmpty_true in I.
      destruct (sliceFrom parts (len parts - len fp - 1)) as [tail| |] eqn:S;
        cbn [bind] in H; try discriminate.
      injection H as <-. cbn [Repo RelativePath].
      split; [|split].
      * intros _. unfold len in L3. lia.
      * intros N. contradiction.
      * intros _. unfold sliceFrom in S.
        destruct ((0 <=? len parts - len fp - 1) &&
                  (len parts - len fp - 1 <=? len parts)) eqn:B; [|discriminate].
        injection S as <-. apply andb_true_iff in B as [B1 _].
        apply Z.leb_le in B1.
        exists (Z.to_nat (len parts - len fp - 1)).
        split; [unfold len in *; lia | reflexivity].
    + apply isEmpty_false in I. injection H as <-.
      split; [|split].
      * intros _. unfold len in L3. lia.
      * reflexivity.
      * intros E. contradiction.
Qed.

(** The two ways out of [afterScan] for a symbol that is not empty. *)
Lemma afterScan_inv (function path first : gostring) (others : list gostring)
    (spec0 spec : SourceSpec) (parts : list gostring) :
  afterScan function path spec0 parts = Ok spec ->
  qualifierParts function = Ok (first :: others) ->
  (Contains first [dot] = false /\ 0 <= LastIndex path first /\
   spec = mkSourceSpec [] (skipn (Z.to_nat (LastIndex path first)) path) [])
  \/ reconstruct path spec0 parts (first :: others) = Ok spec.
Proof.
  intros H Q. unfold afterScan in H.
  destruct (isEmpty function); [discriminate|].
  rewrite Q in H. cbn [bind] in H.
  rewrite index_ok in H by (unfold len; cbn [List.length]; lia).
  cbn [bind Z.to_nat nth] in H. change (lit ".") with [dot] in H.
  destruct (Contains first [dot]) eqn:C; cbn [negb] in H; [now right|].
  destruct (0 <=? LastIndex path first) eqn:P; [|now right].
  apply Z.leb_le in P.
  rewrite sliceFrom_ok in H by (pose proof (LastIndex_le path first); lia).
  cbn [bind] in H. injection H as <-. left. auto.
Qed.

Lemma finalSegmentText_last (path : gostring) :
  finalSegmentText path <> [] -> List.last (Split path slash) [] <> [].
Proof.
  unfold finalSegmentText. intros H E. rewrite E in H. now apply H.
Qed.

Lemma finalSegmentText_no_marker (path : gostring) :
  existsb hasMarker (Split path slash) = false ->
  finalSegmentText path = List.last (Split path slash) [].
Proof.
  intros M. unfold finalSegmentText.
  rewrite LastIndex_no_byte; [reflexivity|].
  pose proof (Split_not_nil path slash) as N.
  apply (proj1 (no_marker_iff _) M).
  destruct (exists_last N) as [l [x ->]]. rewrite last_last.
  apply in_or_app. right. now left.
Qed.

(** C7, amended.  On a success that is not of the direct form: the relative
    path is not empty when the first qualifier part of the symbol is not empty
    and the final segment of the recorded path keeps some text before its
    last "@"; and repository and revision are both empty only when the first
    qualifier part has no ".", the classification as standard library, or the
    symbol has fewer than three qualifier parts. *)
Theorem resolution_invariant (function path first : gostring)
    (others : list gostring) (spec : SourceSpec) :
  resolveImportPath function path = Ok spec ->
  isDirectForm path = false ->
  qualifierParts function = Ok (first :: others) ->
  (first <> [] -> finalSegmentText path <> [] -> RelativePath spec <> []) /\
  (Repo spec = [] -> Revision spec = [] ->
   Contains first [dot] = false \/ (List.length (first :: others) < 3)%nat).
Proof.
  intros H D Q.
  assert (Std : forall spec0 parts,
             afterScan function path spec0 parts = Ok spec ->
             Repo spec0 = [] ->
             (first <> [] -> RelativePath spec0 <> [] \/
                (RelativePath spec0 = [] /\ List.last parts [] <> []) ->
              RelativePath spec <> []) /\
             (Repo spec = [] ->
              Contains first [dot] = false \/ (List.length (first :: others) < 3)%nat)).
  { intros spec0 parts A R0.
    destruct (afterScan_inv _ _ _ _ _ _ _ A Q) as [[C [P ->]] | R].
    - split; [|now left]. intros F _. cbn [RelativePath]. intros E.
      apply (f_equal (@List.length ascii)) in E. rewrite length_skipn in E.
      pose proof (LastIndex_bound path first P) as B.
      destruct first; [congruence|]. rewrite len_cons in B.
      pose proof (len_nonneg first). unfold len in *. simpl in E. lia.
    - destruct (reconstruct_inv _ _ _ _ _ R R0) as [R1 [R2 R3]].
      split; [|intros E; right; auto].
      intros _ [N | [E L]].
      + rewrite (R2 N). exact N.
      + destruct (R3 E) as [k [K ->]].
        apply Join_nonempty; [now apply skipn_not_nil|].
        now rewrite last_skipn. }
  unfold resolveImportPath in H.
  destruct (scan_cases path) as [[M S] | [before [pre [post [after [E [B [P S]]]]]]]];
    rewrite S in H; cbn [bind] in H.
  - destruct (Std _ _ H eq_refl) as [S1 S2]. split; [|auto].
    intros F T. apply S1; [exact F|]. right. split; [reflexivity|].
    now rewrite <- finalSegmentText_no_marker.
  - rewrite (isDirectForm_marker _ _ _ _ _ E) in D. apply negb_false_iff in D.
    rewrite D in H. destruct (Std _ _ H eq_refl) as [S1 S2]. split; [|auto].
    intros F T. apply S1; [exact F|]. cbn [RelativePath].
    destruct after as [|a after].
    + right. split; [reflexivity|]. rewrite last_last.
      unfold finalSegmentText in T. rewrite E, last_last in T.
      apply hasMarker_false in P.
      rewrite LastIndex_byte in T by exact P.
      pose proof (len_nonneg pre).
      replace (0 <=? len pre) with true in T by (symmetry; apply Z.leb_le; lia).
      rewrite to_nat_len, firstn_app, firstn_all, Nat.sub_diag in T.
      simpl in T. now rewrite app_nil_r in T.
    + left. apply Join_nonempty; [discriminate|].
      apply finalSegmentText_last in T. rewrite E in T.
      rewrite last_app in T by discriminate.
      exact T.
Qed.

Lemma resolution_invariant_witness :
  resolveImportPath
    (lit "github.com/felixge/httpsnoop.(*Metrics).CaptureMetrics")
    (lit "/home/runner/go/pkg/mod/github.com/felixge/httpsnoop@v1.0.3")
  = Ok (mkSourceSpec (lit "github.com/felixge/httpsnoop") (lit "httpsnoop")
          (lit "v1.0.3")) /\
  RelativePath (mkSourceSpec (lit "github.com/felixge/httpsnoop") (lit "httpsnoop")
                  (lit "v1.0.3")) <> [].
Proof.
  split; [vm_compute; reflexivity|].
  apply (resolution_invariant
           (lit "github.com/felixge/httpsnoop.(*Metrics).CaptureMetrics")
           (lit "/home/runner/go/pkg/mod/github.com/felixge/httpsnoop@v1.0.3")
           (lit "github.com") [lit "felixge"; lit "httpsnoop"]);
    try (vm_compute; reflexivity); vm_compute; discriminate.
Defined.

(** The same search with the package os: the last "os" of the recorded path
    lies inside the file name. *)
Example stdlib_substring_in_file_name :
  resolveImportPath (lit "os.(*File).Read") (lit "/usr/local/go/src/os/file_posix.go")
  = Ok (mkSourceSpec [] (lit "osix.go") []).
Proof. vm_compute. reflexivity. Qed.

(** The case that the amended C5 leaves out: an absolute path with a marker
    and something behind it keeps what is behind the marker. *)
Lemma hosted_reconstruction_marker (function path p1 p2 p3 : gostring)
    (rest before : list gostring) (pre post : gostring) (after : list gostring) :
  isEmpty function = false ->
  qualifierParts function = Ok (p1 :: p2 :: p3 :: rest) ->
  Contains p1 [dot] = true ->
  HasPrefix path [slash] = true ->
  Split path slash = before ++ (pre ++ at_sign :: post) :: after ->
  existsb hasMarker before = false ->
  hasMarker post = false ->
  Join after [slash] <> [] ->
  resolveImportPath function path
  = Ok (mkSourceSpec (Join [p1; p2; p3] [slash]) (Join after [slash]) post).
Proof.
  intros F Q C A E B P N. unfold resolveImportPath. rewrite E.
  rewrite scanLoop_found
    by (try (now apply no_marker_iff); now apply hasMarker_false).
  rewrite A. cbn [bind]. unfold afterScan. rewrite F, Q. cbn [bind].
  rewrite index_ok by (unfold len; cbn [List.length]; lia).
  cbn [bind Z.to_nat nth]. change (lit ".") with [dot]. rewrite C. cbn [negb].
  unfold reconstruct. cbn [zeroSpec Repo RelativePath Revision isEmpty].
  replace (3 <=? len (p1 :: p2 :: p3 :: rest)) with true
    by (symmetry; apply Z.leb_le; unfold len; cbn [List.length]; lia).
  rewrite sliceTo_ok, sliceFrom_ok by (unfold len; cbn [List.length]; lia).
  cbn [bind]. change (Z.to_nat 3) with 3%nat. cbn [firstn skipn].
  cbn [Repo RelativePath Revision]. change (lit "/") with [slash].
  apply isEmpty_false in N. rewrite N. reflexivity.
Qed.

(** The symbol always splits into at least one qualifier part. *)
Lemma qualifierParts_total (function : gostring) :
  exists first others, qualifierParts function = Ok (first :: others).
Proof.
  unfold qualifierParts.
  pose proof (Split_not_nil function slash) as N.
  destruct (Split function slash) as [|p ps] eqn:Sp; [congruence|].
  rewrite index_ok by (unfold len, gostring; simpl List.length; lia).
  cbn [bind].
  destruct (0 <=? Index _ (lit ".")) eqn:D.
  - rewrite sliceTo_ok by (split; [now apply Z.leb_le | apply Index_le]).
    cbn [bind].
    destruct (Z.to_nat (len (p :: ps) - 1)); cbn [update]; eauto.
  - eauto.
Qed.

Lemma reconstruct_no_error (path : gostring) (spec : SourceSpec)
    (parts fp : list gostring) (e : error) :
  reconstruct path spec parts fp <> Err e.
Proof.
  unfold reconstruct.
  assert (T : forall (A : Type) (l : list A) z, sliceTo l z <> Err e)
    by (intros A l z; unfold sliceTo; destruct (_ && _); discriminate).
  assert (Fr : forall (A : Type) (l : list A) z, sliceFrom l z <> Err e)
    by (intros A l z; unfold sliceFrom; destruct (_ && _); discriminate).
  destruct (isEmpty (Repo spec)); [destruct (3 <=? len fp)|]; cbn [bind].
  - pose proof (T _ fp 3) as T3. pose proof (Fr _ fp 3) as F3.
    destruct (sliceTo fp 3); cbn [bind]; try congruence.
    destruct (sliceFrom fp 3) as [r| |]; cbn [bind]; try congruence.
    cbn [RelativePath]. destruct (isEmpty (RelativePath spec)); [|discriminate].
    pose proof (Fr _ parts (len parts - len r - 1)) as F4.
    destruct (sliceFrom parts _); cbn [bind]; congruence.
  - destruct (isEmpty (RelativePath spec)); [|discriminate].
    pose proof (Fr _ parts (len parts - len fp - 1)) as F4.
    destruct (sliceFrom parts _); cbn [bind]; congruence.
  - destruct (isEmpty (RelativePath spec)); [|discriminate].
    pose proof (Fr _ parts (len parts - len fp - 1)) as F4.
    destruct (sliceFrom parts _); cbn [bind]; congruence.
Qed.

Lemma afterScan_error (function path : gostring) (spec : SourceSpec)
    (parts : list gostring) (e : error) :
  afterScan function path spec parts = Err e <->
  function = [] /\ e = errors_New msgFunctionEmpty.
Proof.
  unfold afterScan. split.
  - destruct (isEmpty function) eqn:F.
    + intros H. injection H as <-. now apply isEmpty_true in F.
    + destruct (qualifierParts_total function) as [first [others ->]].
      cbn [bind].
      rewrite index_ok by (unfold len; cbn [List.length]; lia).
      cbn [bind Z.to_nat nth].
      destruct (negb (Contains first (lit "."))).
      * destruct (0 <=? LastIndex path first) eqn:P.
        -- apply Z.leb_le in P.
           rewrite sliceFrom_ok by (pose proof (LastIndex_le path first); lia).
           discriminate.
        -- intros H. now apply reconstruct_no_error in H.
      * intros H. now apply reconstruct_no_error in H.
  - intros [-> ->]. reflexivity.
Qed.

(** The part of C2 that holds: [resolveImportPath] returns an error exactly
    when the symbol is empty and the recorded path is not of the direct form,
    and the error is then the one about the empty function. *)
Lemma resolve_error_iff (function path : gostring) (e : error) :
  resolveImportPath function path = Err e <->
  function = [] /\ isDirectForm path = false /\ e = errors_New msgFunctionEmpty.
Proof.
  split.
  - intros H. unfold resolveImportPath in H.
    destruct (scan_cases path) as [[M S] | [before [pre [post [after [E [_ [_ S]]]]]]]];
      rewrite S in H; cbn [bind] in H.
    + apply afterScan_error in H as [-> ->]. split; [reflexivity|].
      split; [|reflexivity]. unfold isDirectForm. rewrite M. apply andb_false_r.
    + rewrite (isDirectForm_marker _ _ _ _ _ E).
      destruct (HasPrefix path [slash]); [|discriminate].
      apply afterScan_error in H as [-> ->]. auto.
  - intros [-> [D ->]].
    destruct (resolve_not_direct [] path D) as [spec [parts ->]]. reflexivity.
Qed.

End Resolution.

(** ** Properties of the search for the file ([src/main.go]) *)

Section FileLocator.
Import Locator.

Lemma EndsWith_same_length (s a b : gostring) :
  EndsWith s a -> EndsWith s b -> len a = len b -> a = b.
Proof.
  intros [x Hx] [y Hy] L.
  assert (E : List.length x = List.length y).
  { apply (f_equal (@List.length ascii)) in Hx, Hy.
    rewrite length_app in Hx, Hy. unfold len in L. lia. }
  assert (A : skipn (List.length x) s = a)
    by (rewrite Hx, skipn_app, skipn_all, Nat.sub_diag; reflexivity).
  assert (B : skipn (List.length y) s = b)
    by (rewrite Hy, skipn_app, skipn_all, Nat.sub_diag; reflexivity).
  rewrite <- A, <- B, E. reflexivity.
Qed.


(** The root-relative path the callback computes for a file under the root. *)
Lemma relPath_under_root (dir : gostring) (d : DirEntry) :
  underRoot dir d = true -> de_isDir d = false ->
  sliceFrom (de_path d) (len dir + 1) = Ok (relPathOf dir d) /\
  relPathOf dir d <> [].
Proof.
  unfold underRoot. intros U F. rewrite F in U. cbn [orb] in U.
  apply andb_true_iff in U as [_ L]. apply Z.ltb_lt in L.
  pose proof (len_nonneg dir). split.
  - rewrite sliceFrom_ok by lia. unfold relPathOf. do 2 f_equal.
    unfold len. lia.
  - unfold relPathOf. apply skipn_not_nil. unfold len in *. lia.
Qed.

Lemma Candidate_cons (dir recorded c : gostring) (d : DirEntry)
    (entries : list DirEntry) :
  Candidate dir (d :: entries) recorded c <->
  (de_isDir d = false /\ relPathOf dir d = c /\ EndsWith recorded c) \/
  Candidate dir entries recorded c.
Proof.
  unfold Candidate. split.
  - intros [e [[<-|I] H]]; [left; exact H | right; eauto].
  - intros [H | [e [I H]]]; [exists d | exists e]; simpl; auto.
Qed.

(** The walk keeps the longest candidate met so far. *)
Lemma walk_spec (dir recorded : gostring) (entries : list DirEntry) :
  forall found0 : gostring,
  forallb (underRoot dir) entries = true ->
  exists found,
    walk recorded (len dir) found0 entries = Ok found /\
    (found = found0 \/ Candidate dir entries recorded found) /\
    len found0 <= len found /\
    (forall c, Candidate dir entries recorded c -> len c <= len found).
Proof.
  induction entries as [|d rest IH]; intros found0 U.
  - exists found0. split; [reflexivity|]. split; [now left|]. split; [lia|].
    intros c [e [[] _]].
  - cbn [forallb] in U. apply andb_true_iff in U as [Ud Ur].
    cbn [walk]. unfold walkFn.
    destruct (de_isDir d) eqn:F.
    + cbn [bind]. destruct (IH found0 Ur) as [found [W [O [L M]]]].
      exists found. split; [exact W|]. split; [|split; [exact L|]].
      * destruct O as [O|O]; [now left | right; apply Candidate_cons; now right].
      * intros c C. apply Candidate_cons in C as [[F' _] | C]; [congruence | auto].
    + destruct (relPath_under_root dir d Ud F) as [S N]. rewrite S. cbn [bind].
      destruct (HasSuffix recorded (relPathOf dir d)) eqn:X.
      * apply HasSuffix_iff in X.
        destruct (len found0 <? len (relPathOf dir d)) eqn:Lt; cbn [bind].
        -- apply Z.ltb_lt in Lt.
           destruct (IH (relPathOf dir d) Ur) as [found [W [O [L M]]]].
           exists found. split; [exact W|]. split; [|split; [lia|]].
           ++ right. apply Candidate_cons.
              destruct O as [->|O]; [left; auto | now right].
           ++ intros c C. apply Candidate_cons in C as [[_ [<- _]] | C]; auto.
        -- apply Z.ltb_ge in Lt.
           destruct (IH found0 Ur) as [found [W [O [L M]]]].
           exists found. split; [exact W|]. split; [|split; [exact L|]].
           ++ destruct O as [O|O]; [now left | right; apply Candidate_cons; now right].
           ++ intros c C. apply Candidate_cons in C as [[_ [<- _]] | C]; [lia | auto].
      * cbn [bind]. destruct (IH found0 Ur) as [found [W [O [L M]]]].
        exists found. split; [exact W|]. split; [|split; [exact L|]].
        -- destruct O as [O|O]; [now left | right; apply Candidate_cons; now right].
        -- intros c C. apply Candidate_cons in C as [[_ [<- E]] | C]; [|auto].
           apply HasSuffix_iff in E. congruence.
Qed.

Lemma Candidate_not_nil (dir recorded c : gostring) (entries : list DirEntry) :
  forallb (underRoot dir) entries = true ->
  Candidate dir entries recorded c -> c <> [].
Proof.
  intros U [d [I [F [<- _]]]].
  rewrite forallb_forall in U. apply (relPath_under_root dir d (U d I) F).
Qed.

(** The search as a whole: the longest candidate, or [io.EOF] when there is
    none. *)
Lemma locate_spec (dir recorded : gostring) (entries : list DirEntry) :
  forallb (underRoot dir) entries = true ->
  (exists r, locate dir entries recorded = Ok r /\
             Candidate dir entries recorded r /\
             forall c, Candidate dir entries recorded c -> len c <= len r)
  \/ (locate dir entries recorded = Err io_EOF /\
      forall c, ~ Candidate dir entries recorded c).
Proof.
  intros U. unfold locate.
  destruct (walk_spec dir recorded entries [] U) as [found [W [O [_ M]]]].
  rewrite W. cbn [bind]. destruct found as [|x found]; cbn [isEmpty].
  - right. split; [reflexivity|]. intros c C.
    pose proof (M c C) as L. pose proof (Candidate_not_nil _ _ _ _ U C) as N.
    destruct c; [congruence|]. rewrite len_cons in L.
    pose proof (len_nonneg c). change (len (@nil ascii)) with 0 in L. lia.
  - left. exists (x :: found). split; [reflexivity|]. split; [|exact M].
    destruct O as [O|O]; [discriminate | exact O].
Qed.

(** C3 as stated fails: the file bc.go of the root is the answer for a
    recorded path that ends in abc.go, where the byte before the ending is
    not a separator. *)
Lemma substring_match_counterexample :
  locate (lit "/m") [mkDirEntry (lit "/m") true; mkDirEntry (lit "/m/bc.go") false]
    (lit "/build/pkg/abc.go")
  = Ok (lit "bc.go") /\
  segmentAligned (lit "/build/pkg/abc.go") (lit "bc.go") = false.
Proof. split; vm_compute; reflexivity. Qed.

(** C3, amended.  For the entries of a walk under the root and a file among
    them: the file is the answer of the search only if the recorded path ends
    with its root-relative path; and whenever the recorded path ends with it,
    whatever byte stands before, the file is a candidate, so that the search
    answers with it or with a longer one. *)
Theorem candidate_iff_suffix (dir recorded : gostring)
    (entries : list DirEntry) (d : DirEntry) :
  forallb (underRoot dir) entries = true ->
  In d entries -> de_isDir d = false ->
  (locate dir entries recorded = Ok (relPathOf dir d) ->
   EndsWith recorded (relPathOf dir d)) /\
  (EndsWith recorded (relPathOf dir d) ->
   exists r, locate dir entries recorded = Ok r /\
             len (relPathOf dir d) <= len r).
Proof.
  intros U I F. split.
  - intros L. destruct (locate_spec dir recorded entries U)
      as [[r [L' [[e [_ [_ [<- E]]]] _]]] | [L' _]]; [|congruence].
    rewrite L in L'. injection L' as ->. exact E.
  - intros E.
    assert (C : Candidate dir entries recorded (relPathOf dir d))
      by (exists d; auto).
    destruct (locate_spec dir recorded entries U)
      as [[r [L' [_ M]]] | [_ N]]; [|now apply N in C].
    exists r. split; [exact L' | now apply M].
Qed.

Lemma candidate_iff_suffix_witness :
  exists r,
    locate (lit "/m")
      [mkDirEntry (lit "/m") true; mkDirEntry (lit "/m/pkg") true;
       mkDirEntry (lit "/m/pkg/a") true; mkDirEntry (lit "/m/pkg/a/file.go") false]
      (lit "/build/machine/pkg/a/file.go") = Ok r /\
    len (lit "pkg/a/file.go") <= len r.
Proof.
  apply (candidate_iff_suffix (lit "/m") (lit "/build/machine/pkg/a/file.go")
           [mkDirEntry (lit "/m") true; mkDirEntry (lit "/m/pkg") true;
            mkDirEntry (lit "/m/pkg/a") true; mkDirEntry (lit "/m/pkg/a/file.go") false]
           (mkDirEntry (lit "/m/pkg/a/file.go") false)).
  - reflexivity.
  - simpl. auto.
  - reflexivity.
  - exists (lit "/build/machine/"). reflexivity.
Defined.



(** The test of the specification: a root that holds only pkg/a/file.go. *)
Example locate_finds_file :
  locate (lit "/m")
    [mkDirEntry (lit "/m") true; mkDirEntry (lit "/m/pkg") true;
     mkDirEntry (lit "/m/pkg/a") true; mkDirEntry (lit "/m/pkg/a/file.go") false]
    (lit "/build/machine/pkg/a/file.go")
  = Ok (lit "pkg/a/file.go").
Proof. vm_compute. reflexivity. Qed.

Example locate_prefers_longest :
  locate (lit "/m")
    [mkDirEntry (lit "/m") true; mkDirEntry (lit "/m/a") true;
     mkDirEntry (lit "/m/a/file.go") false; mkDirEntry (lit "/m/file.go") false]
    (lit "/build/machine/pkg/a/file.go")
  = Ok (lit "a/file.go").
Proof. vm_compute. reflexivity. Qed.

Lemma sliceFrom_inv {A : Type} (s t : list A) (lo : Z) :
  sliceFrom s lo = Ok t -> 0 <= lo <= len s /\ t = skipn (Z.to_nat lo) s.
Proof.
  unfold sliceFrom. destruct ((0 <=? lo) && (lo <=? len s)) eqn:B; [|discriminate].
  apply andb_true_iff in B as [B1 B2]. apply Z.leb_le in B1, B2.
  intros H. injection H as <-. split; [lia | reflexivity].
Qed.

(** A call of [writeSourceGo] to itself has a shorter recorded path. *)
Lemma dependency_shorter (sourcePath module revision rest : gostring) :
  dependency sourcePath = Ok (Some (module, revision, rest)) ->
  (List.length rest < List.length sourcePath)%nat.
Proof.
  unfold dependency.
  destruct (0 <? Index sourcePath pkgModPath) eqn:I; [|discriminate].
  apply Z.ltb_lt in I.
  remember (len pkgModPath + Index sourcePath pkgModPath) as k eqn:K.
  destruct (sliceFrom sourcePath k) as [depPath| |] eqn:S1; cbn [bind]; try discriminate.
  apply sliceFrom_inv in S1 as [B1 S1].
  remember (Index depPath (lit "@")) as posAt.
  destruct (0 <? posAt) eqn:A; [|discriminate].
  destruct (sliceFrom depPath posAt) as [fromAt| |] eqn:S2;
    cbn [bind]; try discriminate.
  remember (posAt + Index fromAt (lit "/")) as posEnd.
  destruct (0 <? posEnd) eqn:E; [|discriminate].
  destruct (sliceTo _ _) as [m| |]; cbn [bind]; try discriminate.
  destruct (slice _ _ _) as [r| |]; cbn [bind]; try discriminate.
  destruct (sliceFrom depPath posEnd) as [t| |] eqn:S3;
    cbn [bind]; try discriminate.
  apply sliceFrom_inv in S3 as [_ S3].
  intros H. injection H as _ _ <-. subst t depPath.
  rewrite !length_skipn. change (len pkgModPath) with 9 in K.
  unfold len in B1. lia.
Qed.

Lemma dependency_nil : dependency [] = Ok None.
Proof. reflexivity. Qed.

(** The depth given to [writeSourceGo] is never used up: any greater one gives
    the same outcome. *)
Lemma writeSourceGo_depth_enough (W : World) (w : Response) :
  forall (n m : nat) (repo revision sourcePath : gostring),
  (List.length sourcePath <= n)%nat -> (List.length sourcePath <= m)%nat ->
  writeSourceGo_depth n W repo revision sourcePath w
  = writeSourceGo_depth m W repo revision sourcePath w.
Proof.
  induction n as [|n IH]; intros m repo revision sourcePath Ln Lm.
  - destruct sourcePath; [|simpl in Ln; lia].
    destruct m; reflexivity.
  - destruct (dependency sourcePath) as [[[[md rv] rest]|]| |] eqn:D.
    + pose proof (dependency_shorter _ _ _ _ D) as S.
      destruct m as [|m]; [lia|].
      cbn [writeSourceGo_depth]. rewrite D. apply IH; lia.
    + destruct m; cbn [writeSourceGo_depth]; rewrite D; reflexivity.
    + destruct m; cbn [writeSourceGo_depth]; rewrite D; reflexivity.
    + destruct m; cbn [writeSourceGo_depth]; rewrite D; reflexivity.
Qed.

(** When [writeSourceGo] returns nil it has written the bytes of one file that
    it opened, and nothing else. *)
Lemma writeSourceGo_depth_ok (W : World) (w w' : Response) :
  forall (n : nat) (repo revision sourcePath : gostring),
  writeSourceGo_depth n W repo revision sourcePath w = (w', Ok tt) ->
  exists dir foundFile file,
    w_openJoin W [dir; foundFile] = inr file /\
    w' = Write w (f_bytes file).
Proof.
  induction n as [|n IH]; intros repo revision sourcePath H.
  - cbn [writeSourceGo_depth] in H.
    destruct (dependency sourcePath) as [[[[md rv] rest]|]| |];
      try discriminate.
    destruct (w_goModDownload W _) as [[e|info] [x|]]; try discriminate.
    destruct (w_Lstat W _); try discriminate.
    destruct (locate _ _ _) as [found| |]; try discriminate.
    destruct (w_openJoin W _) as [e|file] eqn:O; try discriminate.
    cbn [io_Copy] in H. destruct (f_readErr file); try discriminate.
    injection H as <-. eauto.
  - cbn [writeSourceGo_depth] in H.
    destruct (dependency sourcePath) as [[[[md rv] rest]|]| |];
      try discriminate.
    + eapply IH. exact H.
    + destruct (w_goModDownload W _) as [[e|info] [x|]]; try discriminate.
      destruct (w_Lstat W _); try discriminate.
    destruct (locate _ _ _) as [found| |]; try discriminate.
      destruct (w_openJoin W _) as [e|file] eqn:O; try discriminate.
      cbn [io_Copy] in H. destruct (f_readErr file); try discriminate.
      injection H as <-. eauto.
Qed.

(** C9.  When the call of the handler of [src/main.go] to [writeSourceGo]
    returns nil, the body of the response is the bytes of the file that was
    opened followed by the line "hello": the body is not the file alone. *)
Theorem hello_appended (W : World) (req : Request) (w' : Response) :
  isEmpty (q_repo req) = false ->
  isEmpty (q_path req) = false ->
  writeSourceGo W (q_repo req)
    (if isEmpty (q_revision req) then lit "latest" else q_revision req)
    (q_path req) emptyResponse = (w', Ok tt) ->
  exists dir foundFile file,
    w_openJoin W [dir; foundFile] = inr file /\
    handleSourceGo W req emptyResponse
    = Ok (mkResponse (Some 200) (f_bytes file ++ lit "hello" ++ newline)).
Proof.
  intros R P H. unfold handleSourceGo. rewrite R, P, H.
  destruct (writeSourceGo_depth_ok _ _ _ _ _ _ _ H) as [dir [found [file [O ->]]]].
  exists dir, found, file. split; [exact O | reflexivity].
Qed.

Lemma hello_appended_witness :
  exists dir foundFile file,
    w_openJoin sampleWorld [dir; foundFile] = inr file /\
    handleSourceGo sampleWorld
      (mkRequest (lit "example.com/org/m") [] (lit "/build/machine/pkg/a.go"))
      emptyResponse
    = Ok (mkResponse (Some 200) (f_bytes file ++ lit "hello" ++ newline)).
Proof.
  exact (hello_appended sampleWorld
           (mkRequest (lit "example.com/org/m") [] (lit "/build/machine/pkg/a.go"))
           (mkResponse (Some 200) (lit "package pkg"))
           eq_refl eq_refl eq_refl).
Defined.

(** The response of the sample world to a request for pkg/a.go. *)
Example hello_after_file :
  handleSourceGo sampleWorld
    (mkRequest (lit "example.com/org/m") [] (lit "/build/machine/pkg/a.go"))
    emptyResponse
  = Ok (mkResponse (Some 200) (lit "package pkg" ++ lit "hello" ++ newline)).
Proof. vm_compute. reflexivity. Qed.

End FileLocator.

(** ** Properties of the writers of [src/unnamed/part_000] *)

Section Writers.
Import Resolver.

(** C8, where the code departs from it.  When [go env GOROOT] succeeds and
    the file of the standard library cannot be opened, [writeStdLibGo] does
    not return the error of [os.Open]: that error is dropped, the copy reads
    from a nil file, and the error returned is [os.ErrInvalid], whatever the
    error of [os.Open] was. *)
Theorem stdlib_open_error_dropped (W : World) (sourcePath goRoot : gostring)
    (w : Response) (e : error) :
  w_goEnvGOROOT W = (goRoot, None) ->
  w_openJoin W [w_TrimSpace W goRoot; lit "src"; sourcePath] = inl e ->
  writeStdLibGo W sourcePath w = (w, Err os_ErrInvalid).
Proof.
  intros G O. unfold writeStdLibGo. rewrite G, O. reflexivity.
Qed.

Lemma stdlib_open_error_dropped_witness :
  w_openJoin sampleWorld
    [w_TrimSpace sampleWorld (lit "/usr/local/go"); lit "src"; lit "fmt/missing.go"]
  = inl (external 2) /\
  writeStdLibGo sampleWorld (lit "fmt/missing.go") emptyResponse
  = (emptyResponse, Err os_ErrInvalid).
Proof.
  split; [reflexivity|].
  apply (stdlib_open_error_dropped sampleWorld (lit "fmt/missing.go")
           (lit "/usr/local/go") emptyResponse (external 2));
    reflexivity.
Defined.

(** The sibling [writeSourceGo] returns the error of [os.Open] as it is. *)
Lemma module_open_error_returned (W : World) (repo revision path : gostring)
    (w : Response) (info : GoModInfo) (e : error) :
  w_goModDownload W (repo ++ lit "@" ++ revision) = (inr info, None) ->
  w_openJoin W [Dir info; path] = inl e ->
  writeSourceGo W repo revision path w = (w, Err e).
Proof.
  intros D O. unfold writeSourceGo. rewrite D, O. reflexivity.
Qed.

(** The handler of this revision answers a request that succeeds with the
    bytes of the file and nothing else. *)
Lemma handler_writes_file_only (W : World) (req : Request) (spec : SourceSpec)
    (w' : Response) :
  isEmpty (q_path req) = false ->
  resolveImportPath (q_function req) (q_path req) = Ok spec ->
  writeContent W spec
    (if isEmpty (q_revision req) then lit "latest" else q_revision req)
    emptyResponse = (w', Ok tt) ->
  handleSourceGo W req emptyResponse = Ok w' /\
  exists elems file,
    w_openJoin W elems = inr file /\ w' = mkResponse (Some 200) (f_bytes file).
Proof.
  intros P R H. unfold handleSourceGo. rewrite P, R, H. split; [reflexivity|].
  unfold writeContent in H. destruct (isEmpty (Repo spec)).
  - unfold writeStdLibGo in H. destruct (w_goEnvGOROOT W) as [goRoot [e|]];
      [discriminate|].
    destruct (w_openJoin W _) as [e|file] eqn:O; cbn [io_Copy] in H;
      [discriminate|].
    destruct (f_readErr file); [discriminate|]. injection H as <-. eauto.
  - unfold writeSourceGo in H.
    destruct (w_goModDownload W _) as [[e|info] [x|]]; try discriminate.
    destruct (w_openJoin W _) as [e|file] eqn:O; [discriminate|].
    cbn [io_Copy] in H. destruct (f_readErr file); [discriminate|].
    injection H as <-. eauto.
Qed.

(** C10.  For a specification whose repository is not empty, [writeContent]
    asks [writeSourceGo] for the revision of the specification when there is
    one; for the revision of the caller when the specification has none and
    the caller gave one; and for "latest" when both are empty. *)
Theorem revision_precedence (W : World) (s : SourceSpec) (revision : gostring)
    (w : Response) :
  Repo s <> [] ->
  (Revision s <> [] ->
   writeContent W s revision w
   = writeSourceGo W (Repo s) (Revision s) (RelativePath s) w) /\
  (Revision s = [] -> revision <> [] ->
   writeContent W s revision w
   = writeSourceGo W (Repo s) revision (RelativePath s) w) /\
  (Revision s = [] -> revision = [] ->
   writeContent W s revision w
   = writeSourceGo W (Repo s) (lit "latest") (RelativePath s) w).
Proof.
  intros R. apply isEmpty_false in R.
  unfold writeContent, chooseRevision. rewrite R.
  split; [|split].
  - intros N. apply isEmpty_false in N. rewrite N, N. reflexivity.
  - intros E N. rewrite E. cbn [isEmpty]. apply isEmpty_false in N.
    rewrite N. reflexivity.
  - intros E1 E2. rewrite E1, E2. reflexivity.
Qed.

Lemma revision_precedence_witness :
  writeContent sampleWorld
    (mkSourceSpec (lit "github.com/felixge/httpsnoop") (lit "capture_metrics.go")
       (lit "v1.0.3"))
    (lit "v9.9.9") emptyResponse
  = writeSourceGo sampleWorld (lit "github.com/felixge/httpsnoop") (lit "v1.0.3")
      (lit "capture_metrics.go") emptyResponse.
Proof.
  refine (proj1 (revision_precedence sampleWorld
                   (mkSourceSpec (lit "github.com/felixge/httpsnoop")
                      (lit "capture_metrics.go") (lit "v1.0.3"))
                   (lit "v9.9.9") emptyResponse _) _);
    intros H; vm_compute in H; discriminate H.
Defined.

End Writers.

(** ** More on the symbol and on [resolveImportPath] *)

Section SymbolAndPath.
Import Resolver.

Lemma Index_byte (pre post : gostring) (c : ascii) :
  ~ In c pre -> Index (pre ++ c :: post) [c] = len pre.
Proof.
  intros N. induction pre as [|x pre IH]; cbn [Index app].
  - simpl. destruct (ascii_dec c c); [|congruence].
    now rewrite HasPrefix_nil.
  - assert (P : HasPrefix (x :: pre ++ c :: post) [c] = false).
    { simpl. destruct (ascii_dec x c) as [->|]; [|reflexivity].
      exfalso. apply N. now left. }
    rewrite P, IH by (intros I; apply N; now right).
    rewrite len_cons. pose proof (len_nonneg pre).
    replace (len pre <? 0) with false by (symmetry; apply Z.ltb_ge; lia).
    reflexivity.
Qed.

Lemma Index_no_byte (s : gostring) (c : ascii) : ~ In c s -> Index s [c] < 0.
Proof.
  intros N. destruct (Z.lt_ge_cases (Index s [c]) 0) as [L|L]; [exact L|].
  exfalso. apply N. apply Occ_single. now apply Index_Occ.
Qed.

(** A byte of a string has a first position. *)
Lemma first_position (c : ascii) (s : gostring) :
  In c s -> exists pre post, s = pre ++ c :: post /\ ~ In c pre.
Proof.
  induction s as [|x t IH]; [intros []|]. intros H.
  destruct (ascii_dec x c) as [->|Ne].
  - exists [], t. split; [reflexivity | intros []].
  - destruct H as [H|H]; [congruence|].
    destruct (IH H) as [pre [post [-> P]]]. exists (x :: pre), post.
    split; [reflexivity|]. intros [E|I]; [congruence | contradiction].
Qed.

Lemma update_last {A : Type} (l : list A) (x v : A) :
  update (l ++ [x]) (List.length l) v = l ++ [v].
Proof. apply update_app. Qed.

(** The symbol parser.  [qualifierParts] always returns: it keeps every part
    of the symbol but the last, and it cuts the last part before its first
    ".", so that the part it keeps there has no "." and what it drops is
    empty or begins with ".". *)
Theorem qualifierParts_spec (function : gostring) :
  exists (front : list gostring) (kept dropped : gostring),
    Split function slash = front ++ [kept ++ dropped] /\
    qualifierParts function = Ok (front ++ [kept]) /\
    ~ In dot kept /\
    (dropped = [] \/ exists rest, dropped = dot :: rest).
Proof.
  unfold qualifierParts.
  pose proof (Split_not_nil function slash) as N.
  destruct (exists_last N) as [front [lastPart E]]. rewrite E.
  assert (L : len (front ++ [lastPart]) - 1 = len front)
    by (rewrite len_app; change (len [lastPart]) with 1; lia).
  rewrite L, index_app. cbn [bind]. change (lit ".") with [dot].
  destruct (in_dec ascii_dec dot lastPart) as [I|NI].
  - apply first_position in I as [kept [rest [-> K]]].
    exists front, kept, (dot :: rest).
    rewrite Index_byte by exact K. pose proof (len_nonneg kept).
    replace (0 <=? len kept) with true by (symmetry; apply Z.leb_le; lia).
    rewrite sliceTo_app. cbn [bind]. rewrite to_nat_len, update_last.
    split; [reflexivity|]. split; [reflexivity|]. split; [exact K|].
    right. now exists rest.
  - exists front, lastPart, [].
    pose proof (Index_no_byte lastPart dot NI).
    replace (0 <=? Index lastPart [dot]) with false
      by (symmetry; apply Z.leb_gt; lia).
    rewrite app_nil_r. auto.
Qed.


Lemma update_length {A : Type} (l : list A) (i : nat) (v : A) :
  List.length (update l i v) = List.length l.
Proof.
  revert i. induction l as [|x l IH]; intros [|i]; simpl; auto.
Qed.

Lemma qualifierParts_length (function : gostring) (parts : list gostring) :
  qualifierParts function = Ok parts ->
  List.length parts = List.length (Split function slash).
Proof.
  unfold qualifierParts.
  pose proof (Split_not_nil function slash) as N.
  destruct (Split function slash) as [|p ps] eqn:Sp; [congruence|].
  rewrite index_ok by (unfold len, gostring; simpl List.length; lia).
  cbn [bind].
  destruct (0 <=? Index _ (lit ".")) eqn:D.
  - rewrite sliceTo_ok by (split; [now apply Z.leb_le | apply Index_le]).
    cbn [bind].
    match goal with
    | |- Ok ?u = Ok _ -> _ =>
        intros H; assert (E : u = parts) by congruence; rewrite <- E
    end.
    apply update_length.
  - intros H. assert (E : p :: ps = parts) by congruence. now rewrite <- E.
Qed.

Lemma scan_keeps_length (path : gostring) :
  exists r,
    scanLoop (List.length (Split path slash)) path zeroSpec (Split path slash) 0
    = Ok r /\
    match r with
    | Break _ parts => List.length parts = List.length (Split path slash)
    | _ => True
    end.
Proof.
  destruct (scan_cases path) as [[_ S] | [before [pre [post [after [E [_ [_ S]]]]]]]];
    rewrite S; eexists; (split; [reflexivity|]).
  - reflexivity.
  - destruct (HasPrefix path [slash]); [|exact I].
    rewrite E, !length_app. reflexivity.
Qed.

Lemma reconstruct_returns (path : gostring) (spec : SourceSpec)
    (parts fp : list gostring) :
  (List.length fp < List.length parts)%nat ->
  exists spec', reconstruct path spec parts fp = Ok spec'.
Proof.
  intros L. unfold reconstruct.
  assert (T : forall rest : list gostring,
             (List.length rest <= List.length fp)%nat ->
             forall s0 : SourceSpec,
             exists spec',
               (if isEmpty (RelativePath s0)
                then tail <- sliceFrom parts (len parts - len rest - 1) ;;
                     Ok (mkSourceSpec (Repo s0) (Join tail (lit "/")) (Revision s0))
                else Ok s0) = Ok spec').
  { intros rest R s0. destruct (isEmpty (RelativePath s0)); [|eauto].
    rewrite sliceFrom_ok by (unfold len; lia). cbn [bind]. eauto. }
  destruct (isEmpty (Repo spec)); [destruct (3 <=? len fp) eqn:L3|]; cbn [bind].
  - apply Z.leb_le in L3.
    rewrite sliceTo_ok, sliceFrom_ok by (pose proof (len_nonneg fp); lia).
    cbn [bind]. apply T. rewrite length_skipn. lia.
  - apply T. lia.
  - apply T. lia.
Qed.

(** [resolveImportPath] does not panic when the recorded path has more
    segments than the symbol has parts. *)
Theorem resolve_no_panic (function path : gostring) :
  (List.length (Split function slash) < List.length (Split path slash))%nat ->
  resolveImportPath function path <> Panic.
Proof.
  intros L. unfold resolveImportPath.
  destruct (scan_keeps_length path) as [r [-> K]]. cbn [bind].
  assert (A : forall spec parts,
             List.length parts = List.length (Split path slash) ->
             afterScan function path spec parts <> Panic).
  { intros spec parts P. unfold afterScan.
    destruct (isEmpty function); [discriminate|].
    destruct (qualifierParts_total function) as [first [others Q]].
    pose proof (qualifierParts_length _ _ Q) as QL.
    rewrite Q. cbn [bind].
    rewrite index_ok by (unfold len; cbn [List.length]; lia).
    cbn [bind Z.to_nat nth].
    assert (R : reconstruct path spec parts (first :: others) <> Panic).
    { destruct (reconstruct_returns path spec parts (first :: others))
        as [spec' ->]; [lia | discriminate]. }
    destruct (negb (Contains first (lit "."))); [|exact R].
    destruct (0 <=? LastIndex path first) eqn:P0; [|exact R].
    apply Z.leb_le in P0.
    rewrite sliceFrom_ok by (pose proof (LastIndex_le path first); lia).
    discriminate. }
  destruct r as [spec|spec parts|]; [discriminate | now apply A | now apply A].
Qed.

Lemma resolve_no_panic_witness :
  resolveImportPath (lit "github.com/grafana/phlare/pkg/phlaredb.(*profileStore).cutRowGroup")
    (lit "/home/runner/work/phlare/phlare/pkg/phlaredb/profile_store.go")
  <> Panic.
Proof.
  apply resolve_no_panic. vm_compute. lia.
Defined.

(** The panic of [resolveImportPath] in general: a symbol with at least three
    qualifier parts, the first with a ".", and a recorded path without marker
    that has fewer segments than the parts after the third plus one. *)
Theorem hosted_short_path_panics (function path p1 p2 p3 : gostring)
    (rest : list gostring) :
  isEmpty function = false ->
  qualifierParts function = Ok (p1 :: p2 :: p3 :: rest) ->
  Contains p1 [dot] = true ->
  existsb hasMarker (Split path slash) = false ->
  (List.length (Split path slash) < List.length rest + 1)%nat ->
  resolveImportPath function path = Panic.
Proof.
  intros F Q C M L. unfold resolveImportPath.
  destruct (scan_cases path) as [[_ ->] | [before [pre [post [after [E _]]]]]].
  2:{ rewrite E, marker_present in M. discriminate. }
  cbn [bind]. unfold afterScan. rewrite F, Q. cbn [bind].
  rewrite index_ok by (unfold len; cbn [List.length]; lia).
  cbn [bind Z.to_nat nth]. change (lit ".") with [dot]. rewrite C. cbn [negb].
  unfold reconstruct. cbn [zeroSpec Repo RelativePath Revision isEmpty].
  replace (3 <=? len (p1 :: p2 :: p3 :: rest)) with true
    by (symmetry; apply Z.leb_le; unfold len; cbn [List.length]; lia).
  rewrite sliceTo_ok, sliceFrom_ok by (unfold len; cbn [List.length]; lia).
  cbn [bind]. change (Z.to_nat 3) with 3%nat. cbn [firstn skipn].
  cbn [Repo RelativePath Revision isEmpty].
  rewrite sliceFrom_panic by (unfold len; lia). reflexivity.
Qed.

Lemma hosted_short_path_panics_witness :
  resolveImportPath
    (lit "sigs.k8s.io/controller-runtime/pkg/internal/controller.(*Controller).Start")
    (lit "controller/controller.go")
  = Panic.
Proof.
  apply (hosted_short_path_panics _ _ (lit "sigs.k8s.io") (lit "controller-runtime")
           (lit "pkg") [lit "internal"; lit "controller"]);
    try reflexivity.
  vm_compute. lia.
Defined.

Lemma Join_head (x : gostring) (after : list gostring) :
  Join (x :: after) [slash]
  = x ++ match after with [] => [] | _ => slash :: Join after [slash] end.
Proof.
  destruct after as [|y after]; [simpl; now rewrite app_nil_r | reflexivity].
Qed.

Lemma Join_marker (before : list gostring) (pre post : gostring)
    (after : list gostring) :
  Join (before ++ (pre ++ at_sign :: post) :: after) [slash]
  = Join (before ++ [pre]) [slash] ++ at_sign :: post ++
    match after with [] => [] | _ => slash :: Join after [slash] end.
Proof.
  destruct before as [|b bs].
  - cbn [app]. rewrite Join_head. cbn [Join]. now rewrite <- app_assoc.
  - rewrite !Join_app by discriminate.
    generalize (Join (b :: bs) [slash]). intros J.
    rewrite Join_head. cbn [Join]. rewrite <- !app_assoc. reflexivity.
Qed.

(** The direct form loses nothing.  A recorded path of the direct form is
    resolved whatever the symbol is, and the path is the repository, "@", the
    revision and, unless the marker was in the final segment, "/" and the
    relative path; the revision has neither "@" nor "/". *)
Theorem direct_form_roundtrip (function path : gostring) :
  isDirectForm path = true ->
  exists spec,
    resolveImportPath function path = Ok spec /\
    ~ In at_sign (Revision spec) /\ ~ In slash (Revision spec) /\
    (path = Repo spec ++ at_sign :: Revision spec \/
     path = Repo spec ++ at_sign :: Revision spec ++ slash :: RelativePath spec).
Proof.
  intros D. unfold isDirectForm in D. apply andb_true_iff in D as [A M].
  apply negb_true_iff in A. unfold resolveImportPath.
  destruct (scan_cases path) as [[N _] | [before [pre [post [after [E [_ [P ->]]]]]]]];
    [congruence|].
  rewrite A. cbn [bind]. eexists. split; [reflexivity|].
  cbn [Repo Revision RelativePath].
  split; [now apply hasMarker_false|]. split.
  - intros I. apply (Split_no_sep path slash (pre ++ at_sign :: post)).
    + rewrite E. apply in_or_app. right. now left.
    + apply in_or_app. right. now right.
  - assert (Hp : path = Join (before ++ [pre]) [slash] ++ at_sign :: post ++
                        match after with
                        | [] => []
                        | _ => slash :: Join after [slash]
                        end).
    { rewrite <- (Join_Split path slash) at 1. rewrite E. apply Join_marker. }
    destruct after; [left; now rewrite app_nil_r in Hp | right; exact Hp].
Qed.

Lemma direct_form_roundtrip_witness :
  exists spec,
    resolveImportPath []
      (lit "sigs.k8s.io/controller-runtime@v0.13.1/pkg/internal/controller/controller.go")
    = Ok spec /\
    ~ In at_sign (Revision spec) /\ ~ In slash (Revision spec) /\
    (lit "sigs.k8s.io/controller-runtime@v0.13.1/pkg/internal/controller/controller.go"
     = Repo spec ++ at_sign :: Revision spec \/
     lit "sigs.k8s.io/controller-runtime@v0.13.1/pkg/internal/controller/controller.go"
     = Repo spec ++ at_sign :: Revision spec ++ slash :: RelativePath spec).
Proof.
  apply direct_form_roundtrip. reflexivity.
Defined.

Lemma LastIndex_spec (s sub : gostring) :
  sub <> [] -> 0 <= LastIndex s sub ->
  HasPrefix (skipn (Z.to_nat (LastIndex s sub)) s) sub = true /\
  ~ Occ (tl (skipn (Z.to_nat (LastIndex s sub)) s)) sub.
Proof.
  intros Ne. induction s as [|c t IH]; cbn [LastIndex].
  - destruct sub; [congruence|]. simpl. lia.
  - destruct (0 <=? LastIndex t sub) eqn:E.
    + apply Z.leb_le in E. intros _.
      replace (Z.to_nat (LastIndex t sub + 1)) with (S (Z.to_nat (LastIndex t sub)))
        by lia.
      cbn [skipn]. now apply IH.
    + apply Z.leb_gt in E. destruct (HasPrefix (c :: t) sub) eqn:P; [|lia].
      intros _. cbn [Z.to_nat skipn tl]. split; [exact P|].
      now apply LastIndex_neg_iff.
Qed.

(** The standard library as the code finds it.  For a symbol whose first
    qualifier part is not empty and has no ".", and a recorded path not of
    the direct form in which that part occurs anywhere, also inside a
    segment: repository and revision are empty, and the relative path is the
    end of the recorded path that begins at the last occurrence of the part. *)
Theorem stdlib_last_occurrence (function path first : gostring)
    (others : list gostring) :
  isEmpty function = false ->
  qualifierParts function = Ok (first :: others) ->
  first <> [] ->
  Contains first [dot] = false ->
  isDirectForm path = false ->
  Occ path first ->
  exists rel,
    resolveImportPath function path = Ok (mkSourceSpec [] rel []) /\
    EndsWith path rel /\
    HasPrefix rel first = true /\
    ~ Occ (tl rel) first.
Proof.
  intros F Q Ne C D O.
  destruct (resolve_not_direct function path D) as [spec [pathParts ->]].
  unfold afterScan. rewrite F, Q. cbn [bind].
  rewrite index_ok by (unfold len; cbn [List.length]; lia).
  cbn [bind Z.to_nat nth]. change (lit ".") with [dot]. rewrite C. cbn [negb].
  pose proof (Occ_LastIndex _ _ O) as P.
  replace (0 <=? LastIndex path first) with true
    by (symmetry; apply Z.leb_le; exact P).
  rewrite sliceFrom_ok by (pose proof (LastIndex_le path first); lia).
  cbn [bind]. eexists. split; [reflexivity|].
  destruct (LastIndex_spec path first Ne P) as [H1 H2].
  split; [|split; assumption].
  exists (firstn (Z.to_nat (LastIndex path first)) path).
  symmetry. apply firstn_skipn.
Qed.

Lemma stdlib_last_occurrence_witness :
  exists rel,
    resolveImportPath (lit "runtime.gopark")
      (lit "/usr/local/go/src/runtime/runtime2.go")
    = Ok (mkSourceSpec [] rel []) /\
    EndsWith (lit "/usr/local/go/src/runtime/runtime2.go") rel /\
    HasPrefix rel (lit "runtime") = true /\
    ~ Occ (tl rel) (lit "runtime").
Proof.
  apply (stdlib_last_occurrence (lit "runtime.gopark")
           (lit "/usr/local/go/src/runtime/runtime2.go") (lit "runtime") []);
    try reflexivity.
  - discriminate.
  - exists (lit "/usr/local/go/src/"), (lit "/runtime2.go"). reflexivity.
Defined.

(** A symbol with one or two qualifier parts of which the first has a ".",
    and a recorded path without marker that has more segments than the
    symbol has parts: no repository is made, the relative path is the
    trailing segments, one more than the parts, and [writeContent] serves the
    result from the standard library. *)
Theorem short_hosted_symbol (W : World) (function path first : gostring)
    (others : list gostring) (revision : gostring) (w : Response) :
  isEmpty function = false ->
  qualifierParts function = Ok (first :: others) ->
  (List.length (first :: others) < 3)%nat ->
  Contains first [dot] = true ->
  existsb hasMarker (Split path slash) = false ->
  (List.length (first :: others) < List.length (Split path slash))%nat ->
  exists rel,
    rel = Join (trailing (List.length (first :: others) + 1) (Split path slash))
            [slash] /\
    resolveImportPath function path = Ok (mkSourceSpec [] rel []) /\
    writeContent W (mkSourceSpec [] rel []) revision w = writeStdLibGo W rel w.
Proof.
  intros F Q L3 C M L. eexists. split; [reflexivity|]. split; [|reflexivity].
  unfold resolveImportPath.
  destruct (scan_cases path) as [[_ ->] | [before [pre [post [after [E _]]]]]].
  2:{ rewrite E, marker_present in M. discriminate. }
  cbn [bind]. unfold afterScan. rewrite F, Q. cbn [bind].
  rewrite index_ok by (unfold len; cbn [List.length]; lia).
  cbn [bind Z.to_nat nth]. change (lit ".") with [dot]. rewrite C. cbn [negb].
  unfold reconstruct. cbn [zeroSpec Repo RelativePath Revision isEmpty].
  replace (3 <=? len (first :: others)) with false
    by (symmetry; apply Z.leb_gt; unfold len; lia).
  cbn [bind]. cbn [zeroSpec Repo RelativePath Revision isEmpty].
  rewrite sliceFrom_ok by (unfold len, gostring in *; lia).
  cbn [bind]. change (lit "/") with [slash]. unfold trailing.
  do 3 f_equal. unfold len, gostring in *. f_equal. lia.
Qed.

Lemma short_hosted_symbol_witness :
  exists rel,
    rel = Join (trailing (List.length [lit "gopkg.in"; lit "yaml"] + 1)
                  (Split (lit "/home/runner/work/app/vendor/gopkg.in/yaml.v2/decode.go")
                     slash)) [slash] /\
    resolveImportPath (lit "gopkg.in/yaml.v2.Unmarshal")
      (lit "/home/runner/work/app/vendor/gopkg.in/yaml.v2/decode.go")
    = Ok (mkSourceSpec [] rel []) /\
    writeContent sampleWorld (mkSourceSpec [] rel []) (lit "latest") emptyResponse
    = writeStdLibGo sampleWorld rel emptyResponse.
Proof.
  apply (short_hosted_symbol sampleWorld (lit "gopkg.in/yaml.v2.Unmarshal")
           (lit "/home/runner/work/app/vendor/gopkg.in/yaml.v2/decode.go")
           (lit "gopkg.in") [lit "yaml"] (lit "latest") emptyResponse);
    try reflexivity; vm_compute; lia.
Defined.

End SymbolAndPath.

(** ** More on the search and on [writeSourceGo] of [src/main.go] *)

Section ModuleCache.
Import Locator.

Lemma Candidate_perm (dir recorded c : gostring) (entries entries' : list DirEntry) :
  Permutation entries entries' ->
  Candidate dir entries recorded c -> Candidate dir entries' recorded c.
Proof.
  intros P [d [I H]]. exists d. split; [|exact H].
  now apply (Permutation_in d P).
Qed.

(** The answer of the search does not depend on the order in which the walk
    meets the entries. *)
Theorem locate_order_independent (dir recorded : gostring)
    (entries entries' : list DirEntry) :
  Permutation entries entries' ->
  forallb (underRoot dir) entries = true ->
  locate dir entries recorded = locate dir entries' recorded.
Proof.
  intros P U.
  assert (U' : forallb (underRoot dir) entries' = true).
  { rewrite forallb_forall in *. intros d I. apply U.
    apply (Permutation_in d (Permutation_sym P) I). }
  destruct (locate_spec dir recorded entries U) as [[r [-> [C M]]] | [-> N]];
    destruct (locate_spec dir recorded entries' U') as [[r' [-> [C' M']]] | [-> N']].
  - f_equal.
    pose proof (M r' (Candidate_perm _ _ _ _ _ (Permutation_sym P) C')) as L1.
    pose proof (M' r (Candidate_perm _ _ _ _ _ P C)) as L2.
    destruct C as [_ [_ [_ [_ E]]]]. destruct C' as [_ [_ [_ [_ E']]]].
    apply (EndsWith_same_length recorded); [assumption | assumption | lia].
  - exfalso. apply (N' r). now apply (Candidate_perm _ _ _ entries).
  - exfalso. apply (N r'). apply (Candidate_perm _ _ _ entries'); [|exact C'].
    now apply Permutation_sym.
  - reflexivity.
Qed.

Lemma locate_order_independent_witness :
  locate (lit "/m")
    [mkDirEntry (lit "/m") true; mkDirEntry (lit "/m/a") true;
     mkDirEntry (lit "/m/a/file.go") false; mkDirEntry (lit "/m/file.go") false]
    (lit "/build/machine/pkg/a/file.go")
  = locate (lit "/m")
      [mkDirEntry (lit "/m/file.go") false; mkDirEntry (lit "/m") true;
       mkDirEntry (lit "/m/a") true; mkDirEntry (lit "/m/a/file.go") false]
      (lit "/build/machine/pkg/a/file.go").
Proof.
  apply locate_order_independent; [|reflexivity].
  apply Permutation_sym.
  apply (Permutation_cons_app
           [mkDirEntry (lit "/m") true; mkDirEntry (lit "/m/a") true;
            mkDirEntry (lit "/m/a/file.go") false] []).
  rewrite app_nil_r. apply Permutation_refl.
Defined.

Lemma Index_ge_byte (s : gostring) (c : ascii) : ~ In c s -> Index s [c] = -1.
Proof.
  intros N. pose proof (Index_no_byte s c N). pose proof (Index_ge s [c]). lia.
Qed.

(** What [writeSourceGo] takes from a recorded path in a module cache. *)
Lemma dependency_extracts (pre module rev tail : gostring) :
  Index (pre ++ pkgModPath ++ module ++ at_sign :: rev ++ slash :: tail) pkgModPath
  = len pre ->
  pre <> [] -> module <> [] -> ~ In at_sign module -> ~ In slash rev ->
  dependency (pre ++ pkgModPath ++ module ++ at_sign :: rev ++ slash :: tail)
  = Ok (Some (module, rev, slash :: tail)).
Proof.
  intros I P M Na Ns. unfold dependency. rewrite I.
  assert (Lp : 0 < len pre)
    by (destruct pre; [congruence | rewrite len_cons; pose proof (len_nonneg pre); lia]).
  replace (0 <? len pre) with true by (symmetry; apply Z.ltb_lt; lia).
  replace (pre ++ pkgModPath ++ module ++ at_sign :: rev ++ slash :: tail)
    with ((pre ++ pkgModPath) ++ module ++ at_sign :: rev ++ slash :: tail)
    by (rewrite <- app_assoc; reflexivity).
  replace (len pkgModPath + len pre) with (len (pre ++ pkgModPath))
    by (rewrite len_app; lia).
  rewrite sliceFrom_app. cbn [bind]. change (lit "@") with [at_sign].
  rewrite Index_byte by exact Na.
  assert (Lm : 0 < len module)
    by (destruct module; [congruence | rewrite len_cons; pose proof (len_nonneg module); lia]).
  replace (0 <? len module) with true by (symmetry; apply Z.ltb_lt; lia).
  rewrite sliceFrom_app. cbn [bind]. change (lit "/") with [slash].
  assert (Ir : Index (at_sign :: rev ++ slash :: tail) [slash] = len rev + 1).
  { change (at_sign :: rev ++ slash :: tail)
      with ((at_sign :: rev) ++ slash :: tail).
    rewrite Index_byte; [now rewrite len_cons|].
    intros [E|H]; [discriminate E | contradiction]. }
  rewrite Ir. pose proof (len_nonneg rev) as Lr.
  replace (0 <? len module + (len rev + 1)) with true
    by (symmetry; apply Z.ltb_lt; lia).
  rewrite sliceTo_app. cbn [bind].
  assert (S2 : slice (module ++ at_sign :: rev ++ slash :: tail)
                 (len module + 1) (len module + (len rev + 1)) = Ok rev).
  { unfold slice. rewrite !len_app, !len_cons, len_app, len_cons.
    pose proof (len_nonneg tail).
    replace (0 <=? len module + 1) with true by (symmetry; apply Z.leb_le; lia).
    replace (len module + 1 <=? len module + (len rev + 1)) with true
      by (symmetry; apply Z.leb_le; lia).
    replace (len module + (len rev + 1) <=? len module + (len rev + (len tail + 1) + 1))
      with true by (symmetry; apply Z.leb_le; lia).
    cbn [andb]. f_equal.
    replace (module ++ at_sign :: rev ++ slash :: tail)
      with ((module ++ [at_sign]) ++ rev ++ slash :: tail)
      by (rewrite <- app_assoc; reflexivity).
    replace (Z.to_nat (len module + 1)) with (List.length (module ++ [at_sign]))
      by (rewrite length_app; unfold len; simpl; lia).
    rewrite skipn_app, skipn_all, Nat.sub_diag. cbn [skipn app].
    replace (Z.to_nat (len module + (len rev + 1) - (len module + 1)))
      with (List.length rev) by (unfold len; lia).
    rewrite firstn_app, firstn_all, Nat.sub_diag. cbn [firstn].
    apply app_nil_r. }
  rewrite S2. cbn [bind].
  replace (module ++ at_sign :: rev ++ slash :: tail)
    with ((module ++ at_sign :: rev) ++ slash :: tail)
    by (rewrite <- app_assoc; reflexivity).
  replace (len module + (len rev + 1)) with (len (module ++ at_sign :: rev))
    by (rewrite len_app, len_cons; lia).
  rewrite sliceFrom_app. reflexivity.
Qed.

(** A call of [writeSourceGo] with a path in a module cache is the call with
    what the path gives. *)
Lemma writeSourceGo_redirect (W : World) (repo revision sourcePath : gostring)
    (module rev rest : gostring) (w : Response) :
  dependency sourcePath = Ok (Some (module, rev, rest)) ->
  writeSourceGo W repo revision sourcePath w = writeSourceGo W module rev rest w.
Proof.
  intros D. pose proof (dependency_shorter _ _ _ _ D) as S.
  unfold writeSourceGo. destruct sourcePath as [|c sp]; [discriminate D|].
  cbn [List.length writeSourceGo_depth]. rewrite D.
  apply writeSourceGo_depth_enough; simpl in S; lia.
Qed.

(** Module-cache paths.  When the first "/pkg/mod/" of the recorded path is
    not at its start and is followed by a module, "@", a revision and "/":
    [writeSourceGo] drops the repository and the revision it was given and
    works for the module and the revision of the path, with the rest of the
    path, from that "/" on, as the recorded path. *)
Theorem module_cache_redirect (W : World) (repo revision : gostring)
    (pre module rev tail : gostring) (w : Response) :
  Index (pre ++ pkgModPath ++ module ++ at_sign :: rev ++ slash :: tail) pkgModPath
  = len pre ->
  pre <> [] -> module <> [] -> ~ In at_sign module -> ~ In slash rev ->
  writeSourceGo W repo revision
    (pre ++ pkgModPath ++ module ++ at_sign :: rev ++ slash :: tail) w
  = writeSourceGo W module rev (slash :: tail) w.
Proof.
  intros I P M Na Ns. apply writeSourceGo_redirect.
  now apply dependency_extracts.
Qed.

Lemma module_cache_redirect_witness :
  writeSourceGo sampleWorld (lit "example.com/org/app") (lit "latest")
    (lit "/home/runner/go" ++ pkgModPath ++ lit "example.com/org/m" ++
     at_sign :: lit "v1.2.3" ++ slash :: lit "pkg/a.go") emptyResponse
  = writeSourceGo sampleWorld (lit "example.com/org/m") (lit "v1.2.3")
      (slash :: lit "pkg/a.go") emptyResponse.
Proof.
  apply (module_cache_redirect sampleWorld (lit "example.com/org/app") (lit "latest")
           (lit "/home/runner/go") (lit "example.com/org/m") (lit "v1.2.3")
           (lit "pkg/a.go") emptyResponse);
    try reflexivity; try discriminate;
    intros H; vm_compute in H; intuition discriminate.
Defined.

(** A module-cache path that ends with the version.  When the first
    "/pkg/mod/" of the recorded path is not at its start and is followed by a
    module of at least two bytes, "@" and a revision without any "/" behind:
    the end of the revision is computed as one before the "@", the slice
    expression for the revision is out of range, and the handler panics. *)
Theorem module_cache_version_panics (W : World) (repo revision : gostring)
    (pre module rev : gostring) (w : Response) :
  Index (pre ++ pkgModPath ++ module ++ at_sign :: rev) pkgModPath = len pre ->
  pre <> [] -> (2 <= List.length module)%nat ->
  ~ In at_sign module -> ~ In slash rev ->
  repo <> [] ->
  dependency (pre ++ pkgModPath ++ module ++ at_sign :: rev) = Panic /\
  handleSourceGo W
    (mkRequest repo revision (pre ++ pkgModPath ++ module ++ at_sign :: rev)) w
  = Panic.
Proof.
  intros I P M Na Ns R.
  assert (D : dependency (pre ++ pkgModPath ++ module ++ at_sign :: rev) = Panic).
  { unfold dependency. rewrite I.
    assert (Lp : 0 < len pre)
      by (destruct pre; [congruence | rewrite len_cons; pose proof (len_nonneg pre); lia]).
    replace (0 <? len pre) with true by (symmetry; apply Z.ltb_lt; lia).
    replace (pre ++ pkgModPath ++ module ++ at_sign :: rev)
      with ((pre ++ pkgModPath) ++ module ++ at_sign :: rev)
      by (rewrite <- app_assoc; reflexivity).
    replace (len pkgModPath + len pre) with (len (pre ++ pkgModPath))
      by (rewrite len_app; lia).
    rewrite sliceFrom_app. cbn [bind]. change (lit "@") with [at_sign].
    rewrite Index_byte by exact Na.
    assert (Lm : 2 <= len module) by (unfold len; lia).
    replace (0 <? len module) with true by (symmetry; apply Z.ltb_lt; lia).
    rewrite sliceFrom_app. cbn [bind]. change (lit "/") with [slash].
    rewrite Index_ge_byte
      by (intros [E|H]; [discriminate E | contradiction]).
    replace (0 <? len module + -1) with true by (symmetry; apply Z.ltb_lt; lia).
    rewrite sliceTo_app. cbn [bind]. unfold slice.
    replace (len module + 1 <=? len module + -1) with false
      by (symmetry; apply Z.leb_gt; lia).
    rewrite andb_false_r. reflexivity. }
  split; [exact D|].
  unfold handleSourceGo. cbn [q_repo q_path q_revision].
  apply isEmpty_false in R. rewrite R.
  destruct pre as [|c pre]; [congruence|]. cbn [app isEmpty].
  unfold writeSourceGo. cbn [List.length writeSourceGo_depth].
  change (c :: pre ++ pkgModPath ++ module ++ at_sign :: rev)
    with ((c :: pre) ++ pkgModPath ++ module ++ at_sign :: rev).
  rewrite D. reflexivity.
Qed.

Lemma module_cache_version_panics_witness :
  dependency (lit "/home/runner/go" ++ pkgModPath ++ lit "example.com/org/m" ++
              at_sign :: lit "v1.2.3") = Panic /\
  handleSourceGo sampleWorld
    (mkRequest (lit "example.com/org/app") []
       (lit "/home/runner/go" ++ pkgModPath ++ lit "example.com/org/m" ++
        at_sign :: lit "v1.2.3")) emptyResponse
  = Panic.
Proof.
  apply (module_cache_version_panics sampleWorld (lit "example.com/org/app") []
           (lit "/home/runner/go") (lit "example.com/org/m") (lit "v1.2.3")
           emptyResponse);
    try reflexivity; try (vm_compute; lia);
    intros H; vm_compute in H; intuition discriminate.
Defined.

Lemma dependency_no_error (sourcePath : gostring) (e : error) :
  dependency sourcePath <> Err e.
Proof.
  unfold dependency.
  assert (T : forall (A : Type) (l : list A) z, sliceTo l z <> Err e)
    by (intros A l z; unfold sliceTo; destruct (_ && _); discriminate).
  assert (Fr : forall (A : Type) (l : list A) z, sliceFrom l z <> Err e)
    by (intros A l z; unfold sliceFrom; destruct (_ && _); discriminate).
  assert (Sl : forall (A : Type) (l : list A) a b, slice l a b <> Err e)
    by (intros A l a b; unfold slice; destruct (_ && _); discriminate).
  destruct (0 <? Index sourcePath pkgModPath); [|discriminate].
  pose proof (Fr _ sourcePath (len pkgModPath + Index sourcePath pkgModPath)) as F1.
  destruct (sliceFrom sourcePath _) as [depPath| |]; cbn [bind]; try congruence.
  destruct (0 <? Index depPath (lit "@")); [|discriminate].
  pose proof (Fr _ depPath (Index depPath (lit "@"))) as F2.
  destruct (sliceFrom depPath _) as [fromAt| |]; cbn [bind]; try congruence.
  destruct (0 <? _ + Index fromAt (lit "/")); [|discriminate].
  pose proof (T _ depPath (Index depPath (lit "@"))) as T1.
  destruct (sliceTo depPath _); cbn [bind]; try congruence.
  pose proof (Sl _ depPath (Index depPath (lit "@") + 1)
                (Index depPath (lit "@") + Index fromAt (lit "/"))) as S1.
  destruct (slice depPath _ _); cbn [bind]; try congruence.
  pose proof (Fr _ depPath (Index depPath (lit "@") + Index fromAt (lit "/"))) as F3.
  destruct (sliceFrom depPath _); cbn [bind]; try congruence.
Qed.

Lemma writeSourceGo_depth_EOF (W : World) (w w' : Response) :
  neverEOF W ->
  forall (n : nat) (repo revision sourcePath : gostring),
  writeSourceGo_depth n W repo revision sourcePath w = (w', Err io_EOF) ->
  w' = w /\
  exists module rev path info,
    w_goModDownload W (module ++ lit "@" ++ rev) = (inr info, None) /\
    locate (Dir info) (w_walkDir W (Dir info)) path = Err io_EOF.
Proof.
  intros [N1 [N2 N3]].
  assert (Tail : forall n repo revision sourcePath,
             dependency sourcePath = Ok None ->
             writeSourceGo_depth n W repo revision sourcePath w = (w', Err io_EOF) ->
             w' = w /\
             exists module rev path info,
               w_goModDownload W (module ++ lit "@" ++ rev) = (inr info, None) /\
               locate (Dir info) (w_walkDir W (Dir info)) path = Err io_EOF).
  { intros n repo revision sourcePath D H.
    assert (H' : writeSourceGo_depth 0 W repo revision sourcePath w = (w', Err io_EOF))
      by (destruct n; cbn [writeSourceGo_depth] in *; rewrite D in *; exact H).
    clear H. cbn [writeSourceGo_depth] in H'. rewrite D in H'.
    destruct (w_goModDownload W (repo ++ lit "@" ++ revision))
      as [[e|info] [x|]] eqn:G.
    - injection H' as <- ->. now apply N1 in G.
    - injection H' as <- ->. now apply N1 in G.
    - discriminate.
    - destruct (w_Lstat W (Dir info)); [discriminate|].
      destruct (locate _ _ _) as [found|e|] eqn:L; try discriminate.
      + destruct (w_openJoin W _) as [e|file] eqn:O.
        * injection H' as <- ->. now apply N2 in O.
        * cbn [io_Copy] in H'. destruct (f_readErr file) as [e|] eqn:Rd;
            [|discriminate].
          injection H' as _ ->. now apply (N3 _ _ _ O) in Rd.
      + injection H' as <- ->. split; [reflexivity|].
        exists repo, revision, sourcePath, info. auto. }
  induction n as [|n IH]; intros repo revision sourcePath H;
    destruct (dependency sourcePath) as [[[[md rv] rest]|]|e|] eqn:D;
    try (now apply dependency_no_error in D);
    try (now apply (Tail _ _ _ _ D H));
    cbn [writeSourceGo_depth] in H; rewrite D in H; try discriminate.
  eapply IH. exact H.
Qed.

(** [io.EOF], the error of a file not found, comes out of [writeSourceGo]
    only after a download that succeeded and a walk that found no file, and
    nothing is written then; this for a world whose collaborators do not
    answer with [io.EOF] themselves. *)
Theorem not_found_only_after_download (W : World)
    (repo revision sourcePath : gostring) (w w' : Response) :
  neverEOF W ->
  writeSourceGo W repo revision sourcePath w = (w', Err io_EOF) ->
  w' = w /\
  exists module rev path info,
    w_goModDownload W (module ++ lit "@" ++ rev) = (inr info, None) /\
    locate (Dir info) (w_walkDir W (Dir info)) path = Err io_EOF.
Proof.
  intros N H. unfold writeSourceGo in H.
  exact (writeSourceGo_depth_EOF W w w' N _ _ _ _ H).
Qed.

Lemma sampleWorld_neverEOF : neverEOF sampleWorld.
Proof.
  unfold neverEOF, sampleWorld. cbn [w_goModDownload w_openJoin].
  split; [|split].
  - intros arg e x H. discriminate H.
  - intros elems e H.
    destruct (eqb_paths elems _); [discriminate|].
    destruct (eqb_paths elems _); [discriminate|].
    injection H as <-. discriminate.
  - intros elems file e H R.
    destruct (eqb_paths elems _); [injection H as <-; discriminate R|].
    destruct (eqb_paths elems _); [injection H as <-; discriminate R|].
    discriminate H.
Qed.

Lemma not_found_only_after_download_witness :
  writeSourceGo sampleWorld (lit "example.com/org/m") (lit "latest")
    (lit "/build/machine/pkg/b.go") emptyResponse
  = (emptyResponse, Err io_EOF) /\
  exists module rev path info,
    w_goModDownload sampleWorld (module ++ lit "@" ++ rev) = (inr info, None) /\
    locate (Dir info) (w_walkDir sampleWorld (Dir info)) path = Err io_EOF.
Proof.
  split; [reflexivity|].
  apply (not_found_only_after_download sampleWorld (lit "example.com/org/m")
           (lit "latest") (lit "/build/machine/pkg/b.go") emptyResponse
           emptyResponse sampleWorld_neverEOF eq_refl).
Defined.

End ModuleCache.

(** ** The responses of the two handlers *)

Section Responses.






End Responses.

(** ** The direct form as an encoding *)

Section DirectForm.
Import Resolver.

Lemma Split_app_sep (a b : gostring) (c : ascii) :
  Split (a ++ c :: b) c = Split a c ++ Split b c.
Proof.
  induction a as [|x a IH]; cbn [app Split].
  - destruct (ascii_dec c c); [reflexivity | congruence].
  - destruct (ascii_dec x c); [now rewrite IH|].
    rewrite IH. pose proof (Split_not_nil a c).
    destruct (Split a c); [congruence | reflexivity].
Qed.

Lemma Split_no_sep_one (y : gostring) (c : ascii) :
  ~ In c y -> Split y c = [y].
Proof.
  induction y as [|x y IH]; [reflexivity|]. intros N. cbn [Split].
  destruct (ascii_dec x c) as [->|_]; [exfalso; apply N; now left|].
  rewrite IH by (intros I; apply N; now right). reflexivity.
Qed.

Lemma Split_app_no_sep (y : gostring) (c : ascii) :
  ~ In c y ->
  forall (x : gostring) (front : list gostring) (l : gostring),
  Split x c = front ++ [l] -> Split (x ++ y) c = front ++ [l ++ y].
Proof.
  intros N. induction x as [|a x IH]; intros front l E.
  - cbn [Split] in E. destruct front as [|f front].
    + injection E as <-. now apply Split_no_sep_one.
    + destruct front; discriminate E.
  - cbn [app Split] in *. pose proof (Split_not_nil x c) as Nx.
    destruct (ascii_dec a c).
    + destruct front as [|f front].
      * injection E as _ E. congruence.
      * injection E as <- E. cbn [app]. f_equal. now apply IH.
    + destruct (Split x c) as [|p ps] eqn:Sx; [congruence|].
      destruct front as [|f front].
      * injection E as <- E. subst ps.
        rewrite (IH [] p eq_refl). reflexivity.
      * injection E as <- E. subst ps.
        rewrite (IH (p :: front) l eq_refl). reflexivity.
Qed.

Lemma Split_bytes (s : gostring) (c : ascii) (seg : gostring) (x : ascii) :
  In seg (Split s c) -> In x seg -> In x s.
Proof.
  revert seg. induction s as [|a s IH]; cbn [Split]; intros seg I X.
  - destruct I as [<-|[]]. destruct X.
  - destruct (ascii_dec a c).
    + destruct I as [<-|I]; [destruct X|]. right. now apply (IH seg).
    + destruct (Split s c) as [|p ps].
      * destruct I as [<-|[]]. destruct X as [<-|[]]. now left.
      * destruct I as [<-|I].
        -- destruct X as [<-|X]; [now left|]. right. apply (IH p); [now left|exact X].
        -- right. apply (IH seg); [now right | exact X].
Qed.

(** The direct form is decoded as it is written.  For a repository without
    "@" that does not begin with "/", and a revision with neither "@" nor
    "/": the recorded path made of the repository, "@", the revision, "/" and
    a relative path is resolved, for every symbol, to that repository, that
    revision and that relative path. *)
Theorem direct_form_encoding (function repo rev rel : gostring) :
  ~ In at_sign repo ->
  HasPrefix repo [slash] = false ->
  ~ In at_sign rev -> ~ In slash rev ->
  resolveImportPath function (repo ++ at_sign :: rev ++ slash :: rel)
  = Ok (mkSourceSpec repo rel rev).
Proof.
  intros Nr A Nv Ns.
  pose proof (Split_not_nil repo slash) as N.
  destruct (exists_last N) as [front [l E]].
  assert (Sp : Split (repo ++ at_sign :: rev ++ slash :: rel) slash
               = front ++ (l ++ at_sign :: rev) :: Split rel slash).
  { replace (repo ++ at_sign :: rev ++ slash :: rel)
      with ((repo ++ at_sign :: rev) ++ slash :: rel)
      by (rewrite <- app_assoc; reflexivity).
    rewrite Split_app_sep.
    rewrite (Split_app_no_sep (at_sign :: rev) slash) with (front := front) (l := l).
    - rewrite <- app_assoc. reflexivity.
    - intros [X|X]; [discriminate X | contradiction].
    - exact E. }
  unfold resolveImportPath. rewrite Sp. rewrite scanLoop_found.
  - assert (P : HasPrefix (repo ++ at_sign :: rev ++ slash :: rel) [slash] = false).
    { destruct repo as [|x repo]; [reflexivity|].
      cbn [app HasPrefix] in *. destruct (ascii_dec x slash); [|reflexivity].
      rewrite HasPrefix_nil in A. discriminate A. }
    rewrite P. cbn [bind]. rewrite <- E, !Join_Split. reflexivity.
  - intros seg I X. apply Nr. apply (Split_bytes repo slash seg); [|exact X].
    rewrite E. apply in_or_app. now left.
  - exact Nv.
Qed.

Lemma direct_form_encoding_witness :
  resolveImportPath (lit "main.main")
    (lit "github.com/aws/aws-sdk-go" ++ at_sign :: lit "v1.44.163" ++
     slash :: lit "aws/endpoints/defaults.go")
  = Ok (mkSourceSpec (lit "github.com/aws/aws-sdk-go")
          (lit "aws/endpoints/defaults.go") (lit "v1.44.163")).
Proof.
  apply direct_form_encoding; try reflexivity;
    intros H; vm_compute in H; intuition discriminate.
Defined.

Lemma hosted_reconstruction_marker_witness :
  resolveImportPath (lit "github.com/felixge/httpsnoop.(*Metrics).CaptureMetrics")
    (lit "/home/runner/go/pkg/mod/github.com/felixge/httpsnoop@v1.0.3/capture_metrics.go")
  = Ok (mkSourceSpec
          (Join [lit "github.com"; lit "felixge"; lit "httpsnoop"] [slash])
          (Join [lit "capture_metrics.go"] [slash]) (lit "v1.0.3")).
Proof.
  apply (hosted_reconstruction_marker
           (lit "github.com/felixge/httpsnoop.(*Metrics).CaptureMetrics")
           (lit "/home/runner/go/pkg/mod/github.com/felixge/httpsnoop@v1.0.3/capture_metrics.go")
           (lit "github.com") (lit "felixge") (lit "httpsnoop") []
           [[]; lit "home"; lit "runner"; lit "go"; lit "pkg"; lit "mod";
            lit "github.com"; lit "felixge"]
           (lit "httpsnoop") (lit "v1.0.3") [lit "capture_metrics.go"]);
    try reflexivity.
  vm_compute. discriminate.
Defined.

Lemma handler_writes_file_only_witness :
  handleSourceGo sampleWorld
    (mkRequest (lit "fmt.Println") [] (lit "/usr/local/go/src/fmt/print.go"))
    emptyResponse
  = Ok (mkResponse (Some 200) (lit "package fmt")) /\
  exists elems file,
    w_openJoin sampleWorld elems = inr file /\
    mkResponse (Some 200) (lit "package fmt") = mkResponse (Some 200) (f_bytes file).
Proof.
  apply (handler_writes_file_only sampleWorld
           (mkRequest (lit "fmt.Println") [] (lit "/usr/local/go/src/fmt/print.go"))
           (mkSourceSpec [] (lit "fmt/print.go") []));
    reflexivity.
Defined.

End DirectForm.
